(** * The xv6 physical page allocator with per-page reference counts

    A shallow embedding of [kernel/kalloc.c] (the copy-on-write variant):
    the free list threaded through the free pages themselves, the
    reference-count table, and the operations [kinit], [getrefcnt],
    [increfcnt], [decrefcnt], [freerange], [kfree] and [kalloc].

    Physical memory is a function from addresses to bytes, so that the
    [next] field of a [struct run] really lives in the first eight bytes
    of the freed page and is overwritten by [memset] like any other
    byte.  The two spinlocks are fields of the state, and every
    acquire, release and access to a lock-protected structure is also
    recorded in a history, which is what the locking discipline is
    stated on. *)

From Stdlib Require Import ZArith List Bool String Lia Permutation.
Import ListNotations.
Open Scope Z_scope.

(** ** Memory layout constants *)

(** [PGSIZE] and [PHYSTOP] come from [riscv.h] and [memlayout.h], [end]
    from the linker script; none of them is fixed by [kalloc.c], so the
    development is parametric in them. *)
Class layout : Type := {
  PGSIZE : Z;    (* bytes per page *)
  PHYSTOP : Z;   (* first address past the managed physical memory *)
  end_ : Z       (* [end]: first address after the kernel image *)
}.

(** The layouts the kernel is built for: a page holds at least one
    pointer, the kernel image ends above address 0 (so that no managed
    page is the null pointer), and physical addresses fit in 64 bits
    with two pages to spare, so that the pointer of the seeding loop
    does not wrap around. *)
Definition layout_ok (L : layout) : Prop :=
  8 <= PGSIZE /\ 0 < end_ <= PHYSTOP /\ PHYSTOP + 2 * PGSIZE <= 2 ^ 64.

(** ** Machine integers *)

Definition wrap_uint64 (x : Z) : Z := x mod 2 ^ 64.

Definition INT_MIN : Z := - 2 ^ 31.
Definition INT_MAX : Z := 2 ^ 31 - 1.

(** Two's complement wrap-around of a C [int]. *)
Definition wrap_int (x : Z) : Z := (x + 2 ^ 31) mod 2 ^ 32 - 2 ^ 31.

(** ** Physical memory *)

Definition memory : Type := Z -> Z.

(** Modelled from the spec: [memset] is defined outside [kalloc.c]; it
    is the bulk memory-fill primitive, after which the [n] bytes from
    [dst] are [(unsigned char)c]. *)
Definition memset (dst c n : Z) (m : memory) : memory :=
  fun a => if (dst <=? a) && (a <? dst + n) then c mod 256 else m a.

(** One byte stored by the owner of a page. *)
Definition store_byte (a b : Z) (m : memory) : memory :=
  fun x => if x =? a then b mod 256 else m x.

(** Little-endian load and store of an [n]-byte word (RISC-V). *)
Fixpoint load_le (n : nat) (m : memory) (a : Z) : Z :=
  match n with
  | O => 0
  | S n' => m a + 256 * load_le n' m (a + 1)
  end.

Definition store_le (n : nat) (a v : Z) (m : memory) : memory :=
  fun x =>
    if (a <=? x) && (x <? a + Z.of_nat n)
    then (v / 256 ^ (x - a)) mod 256
    else m x.

(** Size in bytes of a pointer to a [struct run]. *)
Definition PTRSIZE : nat := 8%nat.

(** ** Allocator state *)

Inductive lockid : Type := KmemLock | RefcntLock.

(** What the history records: lock operations, and each access to the
    data a lock is declared next to ([kmem.freelist], [refcnt.count]). *)
Inductive event : Type :=
| EvAcquire (l : lockid)
| EvRelease (l : lockid)
| EvFreelist
| EvCount (i : Z).

Record state : Type := mkState {
  kmem_lock : bool;
  kmem_freelist : Z;           (* head of the chain, 0 when empty *)
  refcnt_lock : bool;
  refcnt_count : Z -> Z;       (* [int count[PHYSTOP / PGSIZE]], by index *)
  mem : memory;
  trace : list event           (* newest event first *)
}.

(** Update of one table slot. *)
Definition upd (f : Z -> Z) (i v : Z) : Z -> Z :=
  fun j => if j =? i then v else f j.

(** The state the kernel boots in: zeroed globals over arbitrary RAM. *)
Definition boot (m0 : memory) : state :=
  mkState false 0 false (fun _ => 0) m0 [].

(** ** A state monad with fatal aborts *)

(** [Panic] keeps the state the kernel stopped in; [Diverge] is a loop
    that ran out of fuel; [Undefined] is an access outside an array,
    for which C defines no behaviour. *)
Inductive outcome (A : Type) : Type :=
| Ret (a : A) (s : state)
| Panic (msg : string) (s : state)
| Diverge
| Undefined.
Arguments Ret {A} a s.
Arguments Panic {A} msg s.
Arguments Diverge {A}.
Arguments Undefined {A}.

Definition M (A : Type) : Type := state -> outcome A.

Definition ret {A} (a : A) : M A := fun s => Ret a s.

Definition bind {A B} (c : M A) (k : A -> M B) : M B :=
  fun s =>
    match c s with
    | Ret a s' => k a s'
    | Panic msg s' => Panic msg s'
    | Diverge => Diverge
    | Undefined => Undefined
    end.

Notation "x <- c ;; k" := (bind c (fun x => k))
  (at level 61, c at next level, right associativity).
Notation "c ;; k" := (bind c (fun _ => k))
  (at level 61, right associativity).

(** Modelled from the spec: [panic] is defined outside [kalloc.c]; it is
    the fatal-abort primitive, the kernel stops where it is. *)
Definition panic {A} (msg : string) : M A := fun s => Panic msg s.

Definition record (e : event) (s : state) : state :=
  mkState (kmem_lock s) (kmem_freelist s) (refcnt_lock s) (refcnt_count s)
          (mem s) (e :: trace s).

Definition set_lock (l : lockid) (b : bool) (s : state) : state :=
  match l with
  | KmemLock =>
      mkState b (kmem_freelist s) (refcnt_lock s) (refcnt_count s)
              (mem s) (trace s)
  | RefcntLock =>
      mkState (kmem_lock s) (kmem_freelist s) b (refcnt_count s)
              (mem s) (trace s)
  end.

(** Modelled from the spec: the spinlock operations are defined outside
    [kalloc.c]; each lock is a mutex that [initlock] leaves free. *)
Definition initlock (l : lockid) : M unit :=
  fun s => Ret tt (set_lock l false s).

(** Modelled from the spec: [acquire] of the mutex; seen from the
    caller it returns with the lock held. *)
Definition acquire (l : lockid) : M unit :=
  fun s => Ret tt (record (EvAcquire l) (set_lock l true s)).

(** Modelled from the spec: [release] of the mutex; it returns with
    the lock free. *)
Definition release (l : lockid) : M unit :=
  fun s => Ret tt (record (EvRelease l) (set_lock l false s)).

(** [kmem.freelist] as an r-value and as an l-value. *)
Definition get_freelist : M Z :=
  fun s => Ret (kmem_freelist s) (record EvFreelist s).

Definition set_freelist (r : Z) : M unit :=
  fun s =>
    Ret tt (record EvFreelist
              (mkState (kmem_lock s) r (refcnt_lock s) (refcnt_count s)
                       (mem s) (trace s))).

(** [refcnt.count[i]] as an r-value and as an l-value. *)
Definition get_count (i : Z) : M Z :=
  fun s => Ret (refcnt_count s i) (record (EvCount i) s).

Definition set_count (i v : Z) : M unit :=
  fun s =>
    Ret tt (record (EvCount i)
              (mkState (kmem_lock s) (kmem_freelist s) (refcnt_lock s)
                       (upd (refcnt_count s) i v) (mem s) (trace s))).

Definition set_mem (m : memory) (s : state) : state :=
  mkState (kmem_lock s) (kmem_freelist s) (refcnt_lock s) (refcnt_count s)
          m (trace s).

Definition do_memset (dst c n : Z) : M unit :=
  fun s => Ret tt (set_mem (memset dst c n (mem s)) s).

(** [r->next] as an r-value and as an l-value. *)
Definition load_next (r : Z) : M Z :=
  fun s => Ret (load_le PTRSIZE (mem s) r) s.

Definition store_next (r v : Z) : M unit :=
  fun s => Ret tt (set_mem (store_le PTRSIZE r v (mem s)) s).

(** A store into a page by whoever owns it (not part of [kalloc.c]). *)
Definition poke (a b : Z) : M unit :=
  fun s => Ret tt (set_mem (store_byte a b (mem s)) s).

(** ** The operations of [kalloc.c] *)

Section Kalloc.

Context {L : layout}.

(** Modelled from the spec: the [PGROUNDUP] macro of [riscv.h] is not
    part of the sources at hand; the specification says that the start
    of the range is rounded up to the next page boundary. *)
Definition PGROUNDUP (a : Z) : Z := (a + PGSIZE - 1) / PGSIZE * PGSIZE.

(** [i] is an index of [refcnt.count], an array of [PHYSTOP / PGSIZE]
    entries. *)
Definition in_table (i : Z) : bool :=
  (0 <=? i) && (i <? PHYSTOP / PGSIZE).

(** Get reference count for a physical address.  The source reads
    [refcnt.count[(uint64)pa / PGSIZE]] with no check at all: for an
    index outside the array the read is out of bounds and nothing
    is returned. *)
Definition getrefcnt (pa : Z) : M Z :=
  if in_table (pa / PGSIZE)
  then get_count (pa / PGSIZE)
  else fun _ => Undefined.

(** Increment reference count. *)
Definition increfcnt (pa : Z) : M unit :=
  if negb (pa mod PGSIZE =? 0) || (PHYSTOP <=? pa)
  then panic "increfcnt"
  else
    acquire RefcntLock ;;
    c <- get_count (pa / PGSIZE) ;;
    set_count (pa / PGSIZE) (wrap_int (c + 1)) ;;
    release RefcntLock.

(** Decrement reference count and return new count. *)
Definition decrefcnt (pa : Z) : M Z :=
  if negb (pa mod PGSIZE =? 0) || (PHYSTOP <=? pa)
  then panic "decrefcnt"
  else
    acquire RefcntLock ;;
    c <- get_count (pa / PGSIZE) ;;
    let cnt := wrap_int (c - 1) in
    set_count (pa / PGSIZE) cnt ;;
    release RefcntLock ;;
    ret cnt.

(** Free the page of physical memory pointed at by [pa]; only when the
    reference count reaches 0 is it filled with junk and put on the
    free list. *)
Definition kfree (pa : Z) : M unit :=
  if negb (pa mod PGSIZE =? 0) || (pa <? end_) || (PHYSTOP <=? pa)
  then panic "kfree"
  else
    cnt <- decrefcnt pa ;;
    if 0 <? cnt then ret tt
    else
      do_memset pa 1 PGSIZE ;;
      acquire KmemLock ;;
      head <- get_freelist ;;
      store_next pa head ;;
      set_freelist pa ;;
      release KmemLock.

(** The loop of [freerange]; [p] is a 64-bit pointer. *)
Fixpoint freerange_loop (fuel : nat) (p pa_end : Z) : M unit :=
  match fuel with
  | O => fun _ => Diverge
  | S fuel' =>
      if wrap_uint64 (p + PGSIZE) <=? pa_end
      then kfree p ;; freerange_loop fuel' (wrap_uint64 (p + PGSIZE)) pa_end
      else ret tt
  end.

Definition freerange (fuel : nat) (pa_start pa_end : Z) : M unit :=
  freerange_loop fuel (PGROUNDUP pa_start) pa_end.

Definition kinit (fuel : nat) : M unit :=
  initlock KmemLock ;;
  initlock RefcntLock ;;
  freerange fuel end_ PHYSTOP.

(** Allocate one page of physical memory; returns 0 if the memory
    cannot be allocated. *)
Definition kalloc : M Z :=
  acquire KmemLock ;;
  r <- get_freelist ;;
  (if negb (r =? 0)
   then next <- load_next r ;; set_freelist next
   else ret tt) ;;
  release KmemLock ;;
  (if negb (r =? 0)
   then do_memset r 5 PGSIZE ;; set_count (r / PGSIZE) 1
   else ret tt) ;;
  ret r.

(** *** Derived programs *)

(** [n] calls of [kalloc] in a row, collecting what they return. *)
Fixpoint kalloc_many (n : nat) : M (list Z) :=
  match n with
  | O => ret []
  | S n' => r <- kalloc ;; rs <- kalloc_many n' ;; ret (r :: rs)
  end.

(** [kfree] on each address of a list, first to last. *)
Fixpoint kfree_all (ps : list Z) : M unit :=
  match ps with
  | [] => ret tt
  | p :: ps' => kfree p ;; kfree_all ps'
  end.

(** The calls the rest of the kernel can make, and a store into a page. *)
Inductive call : Type :=
| Kalloc
| Kfree (pa : Z)
| Incref (pa : Z)
| Decref (pa : Z)
| Getref (pa : Z)
| Poke (a b : Z).

Definition run (c : call) : M unit :=
  match c with
  | Kalloc => kalloc ;; ret tt
  | Kfree pa => kfree pa
  | Incref pa => increfcnt pa
  | Decref pa => decrefcnt pa ;; ret tt
  | Getref pa => getrefcnt pa ;; ret tt
  | Poke a b => poke a b
  end.

(** ** Specification vocabulary *)

(** [n] consecutive page addresses from [p] upward. *)
Fixpoint pages_from (n : nat) (p : Z) : list Z :=
  match n with
  | O => []
  | S n' => p :: pages_from n' (p + PGSIZE)
  end.

(** The whole pages of [[pa_start, pa_end)], in ascending order. *)
Definition range_pages (pa_start pa_end : Z) : list Z :=
  pages_from (Z.to_nat ((pa_end - PGROUNDUP pa_start) / PGSIZE))
             (PGROUNDUP pa_start).

(** The checks at the head of [kfree] pass. *)
Definition page_ok (pa : Z) : Prop :=
  pa mod PGSIZE = 0 /\ end_ <= pa < PHYSTOP.

(** Every byte of the page at [pa] is [c]. *)
Definition page_filled (m : memory) (pa c : Z) : Prop :=
  forall a, pa <= a < pa + PGSIZE -> m a = c.

(** The pages of the free list, head first: the chain of [next]
    pointers from [p] ends in the null pointer after visiting [l]. *)
Inductive is_chain (m : memory) : Z -> list Z -> Prop :=
| chain_nil : is_chain m 0 []
| chain_cons p l :
    p <> 0 -> is_chain m (load_le PTRSIZE m p) l -> is_chain m p (p :: l).

(** The first [n] nodes met when following [next] pointers from [p]. *)
Fixpoint walk (n : nat) (m : memory) (p : Z) : list Z :=
  match n with
  | O => []
  | S n' => if p =? 0 then [] else p :: walk n' m (load_le PTRSIZE m p)
  end.

(** A segment of a chain: from [p], through the nodes [l], to [q]. *)
Inductive is_seg (m : memory) : Z -> list Z -> Z -> Prop :=
| seg_nil p : is_seg m p [] p
| seg_cons p l q :
    p <> 0 -> is_seg m (load_le PTRSIZE m p) l q -> is_seg m p (p :: l) q.

(** The free list of [s] is [l]: distinct pages that [kfree] accepts. *)
Definition freelist_is (s : state) (l : list Z) : Prop :=
  is_chain (mem s) (kmem_freelist s) l /\ NoDup l /\ Forall page_ok l.

(** Every table entry is a value of type [int]. *)
Definition counts_in_range (s : state) : Prop :=
  forall i, INT_MIN <= refcnt_count s i <= INT_MAX.

(** The counter of a page of the free list: 0 once it has been
    allocated and released, -1 as long as it has only been seeded. *)
Definition free_count (s : state) (p : Z) : Prop :=
  refcnt_count s (p / PGSIZE) = 0 \/ refcnt_count s (p / PGSIZE) = -1.

(** The allocator invariant: the free list is a null-terminated chain
    of distinct pages, each with counter 0 or -1. *)
Definition allocator_inv (s : state) : Prop :=
  exists l, freelist_is s l /\ Forall (free_count s) l /\ counts_in_range s.



(** The page a call works on is currently allocated: its reference
    count is at least 1.  [kalloc] and [getrefcnt] need nothing. *)
Definition owned (s : state) (c : call) : Prop :=
  match c with
  | Kalloc | Getref _ => True
  | Kfree pa | Incref pa | Decref pa => 1 <= refcnt_count s (pa / PGSIZE)
  | Poke a _ => 1 <= refcnt_count s (a / PGSIZE)
  end.

(** States reached when callers only touch pages they hold. *)
Inductive reachable_owned : state -> Prop :=
| reacho_kinit m0 fuel s :
    kinit fuel (boot m0) = Ret tt s -> reachable_owned s
| reacho_call s c s' :
    reachable_owned s -> owned s c -> run c s = Ret tt s' ->
    reachable_owned s'.

(** [n] calls of [kfree] on the same page. *)
Fixpoint kfree_times (n : nat) (pa : Z) : M unit :=
  match n with
  | O => ret tt
  | S n' => kfree pa ;; kfree_times n' pa
  end.

(** The pages [kinit] puts on the free list. *)
Definition seeded_pages : list Z := range_pages end_ PHYSTOP.

(** Every counter that is at least 1 is the counter of a seeded page. *)
Definition held_pages_seeded (s : state) : Prop :=
  forall i, 1 <= refcnt_count s i ->
            exists p, In p seeded_pages /\ p / PGSIZE = i.

(** [s'] is reached from [s] by calls of owners (see [owned]). *)
Inductive owned_run : state -> state -> Prop :=
| owned_run_refl s : owned_run s s
| owned_run_step s c s1 s2 :
    owned s c -> run c s = Ret tt s1 -> owned_run s1 s2 -> owned_run s s2.

(** The free pages and the held pages all come from the seeding. *)
Definition seeded_inv (s : state) : Prop :=
  exists l, freelist_is s l /\ incl l seeded_pages /\ held_pages_seeded s.

End Kalloc.

(** ** Locking discipline, on histories in chronological order *)

(** At no point of the history are both locks held.  [km] and [rc]
    say whether [kmem.lock] and [refcnt.lock] are held at its start. *)
Fixpoint never_both (km rc : bool) (evs : list event) : bool :=
  negb (km && rc) &&
  match evs with
  | [] => true
  | EvAcquire KmemLock :: evs' => never_both true rc evs'
  | EvRelease KmemLock :: evs' => never_both false rc evs'
  | EvAcquire RefcntLock :: evs' => never_both km true evs'
  | EvRelease RefcntLock :: evs' => never_both km false evs'
  | _ :: evs' => never_both km rc evs'
  end.

(** Every access to [refcnt.count] happens with [refcnt.lock] held. *)
Fixpoint count_guarded (rc : bool) (evs : list event) : bool :=
  match evs with
  | [] => true
  | EvAcquire RefcntLock :: evs' => count_guarded true evs'
  | EvRelease RefcntLock :: evs' => count_guarded false evs'
  | EvCount _ :: evs' => rc && count_guarded rc evs'
  | _ :: evs' => count_guarded rc evs'
  end.

(** Every access to [kmem.freelist] happens with [kmem.lock] held. *)
Fixpoint freelist_guarded (km : bool) (evs : list event) : bool :=
  match evs with
  | [] => true
  | EvAcquire KmemLock :: evs' => freelist_guarded true evs'
  | EvRelease KmemLock :: evs' => freelist_guarded false evs'
  | EvFreelist :: evs' => km && freelist_guarded km evs'
  | _ :: evs' => freelist_guarded km evs'
  end.

(** Which locks are held at the end of the history. *)
Fixpoint locks_after (km rc : bool) (evs : list event) : bool * bool :=
  match evs with
  | [] => (km, rc)
  | EvAcquire KmemLock :: evs' => locks_after true rc evs'
  | EvRelease KmemLock :: evs' => locks_after false rc evs'
  | EvAcquire RefcntLock :: evs' => locks_after km true evs'
  | EvRelease RefcntLock :: evs' => locks_after km false evs'
  | _ :: evs' => locks_after km rc evs'
  end.

(** The history of a call made with no lock held: the two locks are
    never held together, [kmem.freelist] is only touched under
    [kmem.lock], and no lock is left held. *)
Definition disciplined (evs : list event) : Prop :=
  never_both false false evs = true /\
  freelist_guarded false evs = true /\
  locks_after false false evs = (false, false).

(** [evs] is what was recorded between [s] and [s']. *)
Definition emitted (s s' : state) (evs : list event) : Prop :=
  trace s' = rev evs ++ trace s.


(** The example of the specification: 4096-byte pages, three managed
    pages starting at [0x1000]. *)
Definition example_layout : layout :=
  {| PGSIZE := 4096; PHYSTOP := 0x4000; end_ := 0x1000 |}.

(** ** States to run the examples on *)

(** The state a computation leaves behind. *)
Definition exec {A} (c : M A) (s : state) : state :=
  match c s with
  | Ret _ s' => s'
  | Panic _ s' => s'
  | Diverge => s
  | Undefined => s
  end.

(** The value a computation returns, if it does. *)
Definition result {A} (c : M A) (s : state) : option A :=
  match c s with
  | Ret a _ => Some a
  | _ => None
  end.

(** The example layout after [kinit], booted over zeroed RAM. *)
Definition example_init : state :=
  exec (@kinit example_layout 4) (boot (fun _ => 0)).

(** One page allocated: [0x3000], held once. *)
Definition example_held : state :=
  exec (@kalloc example_layout) example_init.

(** The same page shared: held twice. *)
Definition example_shared : state :=
  exec (@increfcnt example_layout 0x3000) example_held.

(** * Properties *)

(** ** Bytes and words *)

Lemma memset_inside dst c n m a :
  dst <= a < dst + n -> memset dst c n m a = c mod 256.
Proof.
  intros H. unfold memset.
  replace (dst <=? a) with true by (symmetry; apply Z.leb_le; lia).
  replace (a <? dst + n) with true by (symmetry; apply Z.ltb_lt; lia).
  reflexivity.
Qed.

Lemma memset_outside dst c n m a :
  a < dst \/ dst + n <= a -> memset dst c n m a = m a.
Proof.
  intros H. unfold memset.
  destruct (Z.leb_spec dst a); destruct (Z.ltb_spec a (dst + n));
    simpl; auto; lia.
Qed.

Lemma store_le_inside n a v m x :
  a <= x < a + Z.of_nat n ->
  store_le n a v m x = (v / 256 ^ (x - a)) mod 256.
Proof.
  intros H. unfold store_le.
  replace (a <=? x) with true by (symmetry; apply Z.leb_le; lia).
  replace (x <? a + Z.of_nat n) with true by (symmetry; apply Z.ltb_lt; lia).
  reflexivity.
Qed.

Lemma store_le_outside n a v m x :
  x < a \/ a + Z.of_nat n <= x -> store_le n a v m x = m x.
Proof.
  intros H. unfold store_le.
  destruct (Z.leb_spec a x); destruct (Z.ltb_spec x (a + Z.of_nat n));
    simpl; auto; lia.
Qed.

Lemma store_byte_other a b m x : x <> a -> store_byte a b m x = m x.
Proof.
  intros H. unfold store_byte.
  destruct (Z.eqb_spec x a); [contradiction | reflexivity].
Qed.

(** A load only looks at the [n] bytes from [a]. *)
Lemma load_le_ext n : forall m m' a,
  (forall x, a <= x < a + Z.of_nat n -> m' x = m x) ->
  load_le n m' a = load_le n m a.
Proof.
  induction n as [|n IH]; intros m m' a H; [reflexivity|].
  cbn [load_le]. rewrite (H a) by lia.
  rewrite (IH m m' (a + 1)); [reflexivity|].
  intros x Hx. apply H. lia.
Qed.

(** A load is determined by the bytes it reads. *)
Lemma load_le_bytes n : forall m a v,
  (forall i, 0 <= i < Z.of_nat n -> m (a + i) = (v / 256 ^ i) mod 256) ->
  load_le n m a = v mod 256 ^ Z.of_nat n.
Proof.
  induction n as [|n IH]; intros m a v H.
  - cbn. symmetry. apply Z.mod_1_r.
  - cbn [load_le].
    rewrite (IH m (a + 1) (v / 256)).
    + specialize (H 0). rewrite Z.add_0_r, Z.pow_0_r, Z.div_1_r in H.
      rewrite H by lia.
      rewrite Nat2Z.inj_succ, Z.pow_succ_r by lia.
      symmetry. apply Z.rem_mul_r; [lia|].
      apply Z.pow_pos_nonneg; lia.
    + intros i Hi.
      replace (a + 1 + i) with (a + (i + 1)) by lia.
      rewrite H by lia.
      rewrite Z.pow_add_r, Z.pow_1_r by lia.
      rewrite (Z.mul_comm (256 ^ i)), Z.div_div by
        (try apply Z.pow_pos_nonneg; lia).
      reflexivity.
Qed.

Lemma load_store_le n m a v :
  load_le n (store_le n a v m) a = v mod 256 ^ Z.of_nat n.
Proof.
  apply load_le_bytes. intros i Hi.
  rewrite store_le_inside by lia.
  replace (a + i - a) with i by lia. reflexivity.
Qed.

(** A 64-bit pointer written to [r->next] is read back unchanged. *)
Lemma load_store_next m r v :
  0 <= v < 2 ^ 64 ->
  load_le PTRSIZE (store_le PTRSIZE r v m) r = v.
Proof.
  intros H. rewrite load_store_le.
  change (256 ^ Z.of_nat PTRSIZE) with (2 ^ 64).
  apply Z.mod_small. exact H.
Qed.

(** ** Machine integers *)

Lemma wrap_int_range x : INT_MIN <= wrap_int x <= INT_MAX.
Proof.
  unfold wrap_int, INT_MIN, INT_MAX.
  pose proof (Z.mod_pos_bound (x + 2 ^ 31) (2 ^ 32) ltac:(lia)). lia.
Qed.

Lemma wrap_int_small x : INT_MIN <= x <= INT_MAX -> wrap_int x = x.
Proof.
  unfold wrap_int, INT_MIN, INT_MAX. intros H.
  rewrite Z.mod_small; lia.
Qed.

Lemma wrap_uint64_small x : 0 <= x < 2 ^ 64 -> wrap_uint64 x = x.
Proof. intros H. unfold wrap_uint64. apply Z.mod_small. exact H. Qed.

Lemma upd_same f i v : upd f i v i = v.
Proof. unfold upd. rewrite Z.eqb_refl. reflexivity. Qed.

Lemma upd_other f i v j : j <> i -> upd f i v j = f j.
Proof.
  intros H. unfold upd. destruct (Z.eqb_spec j i); [contradiction|reflexivity].
Qed.

Section Properties.

Context {L : layout}.

(** ** Page arithmetic *)

Lemma aligned_eq p : p mod PGSIZE = 0 -> p = PGSIZE * (p / PGSIZE).
Proof.
  intros H. pose proof (Z_div_mod_eq_full p PGSIZE). lia.
Qed.

(** Two distinct page-aligned addresses are a whole page apart. *)
Lemma aligned_apart p q :
  0 < PGSIZE -> p mod PGSIZE = 0 -> q mod PGSIZE = 0 -> p <> q ->
  p + PGSIZE <= q \/ q + PGSIZE <= p.
Proof.
  intros Hpg Hp Hq Hne.
  apply aligned_eq in Hp. apply aligned_eq in Hq.
  destruct (Z.lt_total (p / PGSIZE) (q / PGSIZE)) as [H|[H|H]].
  - left. nia.
  - exfalso. apply Hne. rewrite Hp, Hq, H. reflexivity.
  - right. nia.
Qed.

(** Every address of a page has the table index of the page. *)
Lemma index_in_page q x :
  0 < PGSIZE -> q mod PGSIZE = 0 -> q <= x < q + PGSIZE ->
  x / PGSIZE = q / PGSIZE.
Proof.
  intros Hpg Hq Hx. apply aligned_eq in Hq.
  symmetry. apply Z.div_unique with (r := x - q); lia.
Qed.

Lemma aligned_index_ne p q :
  0 < PGSIZE -> p mod PGSIZE = 0 -> q mod PGSIZE = 0 -> p <> q ->
  p / PGSIZE <> q / PGSIZE.
Proof.
  intros Hpg Hp Hq Hne Heq. apply Hne.
  rewrite (aligned_eq p Hp), (aligned_eq q Hq), Heq. reflexivity.
Qed.

(** An address that passes the checks of the table operations indexes
    the table within its [PHYSTOP / PGSIZE] entries. *)
Lemma checked_index_in_bounds pa :
  0 < PGSIZE -> PHYSTOP mod PGSIZE = 0 ->
  0 <= pa < PHYSTOP -> pa mod PGSIZE = 0 ->
  0 <= pa / PGSIZE < PHYSTOP / PGSIZE.
Proof.
  intros Hpg Hp Hr Ha.
  apply aligned_eq in Hp. apply aligned_eq in Ha. nia.
Qed.

Lemma PGROUNDUP_aligned a : 0 < PGSIZE -> PGROUNDUP a mod PGSIZE = 0.
Proof. intros H. unfold PGROUNDUP. apply Z.mod_mul. lia. Qed.

(** [PGROUNDUP a] is the first page boundary at or above [a]. *)
Lemma PGROUNDUP_bounds a : 0 < PGSIZE -> a <= PGROUNDUP a < a + PGSIZE.
Proof.
  intros H. unfold PGROUNDUP.
  pose proof (Z_div_mod_eq_full (a + PGSIZE - 1) PGSIZE).
  pose proof (Z.mod_pos_bound (a + PGSIZE - 1) PGSIZE H). lia.
Qed.

Lemma PGROUNDUP_least a b :
  0 < PGSIZE -> b mod PGSIZE = 0 -> a <= b -> PGROUNDUP a <= b.
Proof.
  intros H Hb Hab.
  pose proof (PGROUNDUP_bounds a H) as Hr.
  pose proof (PGROUNDUP_aligned a H) as Ha.
  destruct (Z.eq_dec (PGROUNDUP a) b) as [->|Hne]; [lia|].
  destruct (aligned_apart _ _ H Ha Hb Hne); lia.
Qed.

(** ** What each operation does to the state *)

Lemma checks_pass pa :
  page_ok pa ->
  negb (pa mod PGSIZE =? 0) || (pa <? end_) || (PHYSTOP <=? pa) = false.
Proof.
  intros [Ha [Hlo Hhi]].
  rewrite Ha, Z.eqb_refl. simpl.
  destruct (Z.ltb_spec pa end_); [lia|].
  destruct (Z.leb_spec PHYSTOP pa); [lia|]. reflexivity.
Qed.

Lemma checks_fail pa :
  ~ page_ok pa ->
  negb (pa mod PGSIZE =? 0) || (pa <? end_) || (PHYSTOP <=? pa) = true.
Proof.
  intros H. unfold page_ok in H.
  destruct (Z.eqb_spec (pa mod PGSIZE) 0); simpl; [|reflexivity].
  destruct (Z.ltb_spec pa end_); simpl; [reflexivity|].
  destruct (Z.leb_spec PHYSTOP pa); [reflexivity|]. lia.
Qed.

Lemma table_checks_pass pa :
  pa mod PGSIZE = 0 -> pa < PHYSTOP ->
  negb (pa mod PGSIZE =? 0) || (PHYSTOP <=? pa) = false.
Proof.
  intros Ha Hhi. rewrite Ha, Z.eqb_refl. simpl.
  destruct (Z.leb_spec PHYSTOP pa); [lia|reflexivity].
Qed.

Lemma increfcnt_ret pa s :
  pa mod PGSIZE = 0 -> pa < PHYSTOP ->
  increfcnt pa s =
  Ret tt (mkState (kmem_lock s) (kmem_freelist s) false
            (upd (refcnt_count s) (pa / PGSIZE)
                 (wrap_int (refcnt_count s (pa / PGSIZE) + 1)))
            (mem s)
            (EvRelease RefcntLock :: EvCount (pa / PGSIZE)
               :: EvCount (pa / PGSIZE) :: EvAcquire RefcntLock :: trace s)).
Proof.
  intros Ha Hhi. unfold increfcnt.
  rewrite (table_checks_pass pa Ha Hhi). reflexivity.
Qed.

Lemma decrefcnt_ret pa s :
  pa mod PGSIZE = 0 -> pa < PHYSTOP ->
  decrefcnt pa s =
  Ret (wrap_int (refcnt_count s (pa / PGSIZE) - 1))
      (mkState (kmem_lock s) (kmem_freelist s) false
            (upd (refcnt_count s) (pa / PGSIZE)
                 (wrap_int (refcnt_count s (pa / PGSIZE) - 1)))
            (mem s)
            (EvRelease RefcntLock :: EvCount (pa / PGSIZE)
               :: EvCount (pa / PGSIZE) :: EvAcquire RefcntLock :: trace s)).
Proof.
  intros Ha Hhi. unfold decrefcnt.
  rewrite (table_checks_pass pa Ha Hhi). reflexivity.
Qed.

(** [kfree] of a page that stays shared. *)
Lemma kfree_shared pa s :
  page_ok pa ->
  0 < wrap_int (refcnt_count s (pa / PGSIZE) - 1) ->
  kfree pa s =
  Ret tt (mkState (kmem_lock s) (kmem_freelist s) false
            (upd (refcnt_count s) (pa / PGSIZE)
                 (wrap_int (refcnt_count s (pa / PGSIZE) - 1)))
            (mem s)
            (EvRelease RefcntLock :: EvCount (pa / PGSIZE)
               :: EvCount (pa / PGSIZE) :: EvAcquire RefcntLock :: trace s)).
Proof.
  intros Hok Hc. unfold kfree. rewrite (checks_pass pa Hok).
  destruct Hok as [Ha [_ Hhi]].
  unfold bind at 1. rewrite (decrefcnt_ret pa s Ha Hhi).
  destruct (Z.ltb_spec 0 (wrap_int (refcnt_count s (pa / PGSIZE) - 1)));
    [reflexivity | lia].
Qed.

(** [kfree] of the last reference: the page is filled with 1s, linked
    in front of the old head and becomes the new head. *)
Lemma kfree_last pa s :
  page_ok pa ->
  wrap_int (refcnt_count s (pa / PGSIZE) - 1) <= 0 ->
  kfree pa s =
  Ret tt (mkState false pa false
            (upd (refcnt_count s) (pa / PGSIZE)
                 (wrap_int (refcnt_count s (pa / PGSIZE) - 1)))
            (store_le PTRSIZE pa (kmem_freelist s)
                      (memset pa 1 PGSIZE (mem s)))
            (EvRelease KmemLock :: EvFreelist :: EvFreelist
               :: EvAcquire KmemLock
               :: EvRelease RefcntLock :: EvCount (pa / PGSIZE)
               :: EvCount (pa / PGSIZE) :: EvAcquire RefcntLock :: trace s)).
Proof.
  intros Hok Hc. unfold kfree. rewrite (checks_pass pa Hok).
  destruct Hok as [Ha [_ Hhi]].
  unfold bind at 1. rewrite (decrefcnt_ret pa s Ha Hhi).
  destruct (Z.ltb_spec 0 (wrap_int (refcnt_count s (pa / PGSIZE) - 1)));
    [lia | reflexivity].
Qed.

Lemma kfree_panics pa s : ~ page_ok pa -> kfree pa s = Panic "kfree" s.
Proof.
  intros H. unfold kfree. rewrite (checks_fail pa H). reflexivity.
Qed.

Lemma kalloc_empty s :
  kmem_freelist s = 0 ->
  kalloc s =
  Ret 0 (mkState false 0 (refcnt_lock s) (refcnt_count s) (mem s)
           (EvRelease KmemLock :: EvFreelist :: EvAcquire KmemLock
              :: trace s)).
Proof.
  intros H. unfold kalloc, bind, acquire, get_freelist. simpl.
  rewrite H. reflexivity.
Qed.

(** [kalloc] on a non-empty list: the head is unlinked, filled with 5s
    and given the reference count 1. *)
Lemma kalloc_pop s :
  kmem_freelist s <> 0 ->
  kalloc s =
  Ret (kmem_freelist s)
      (mkState false (load_le PTRSIZE (mem s) (kmem_freelist s))
           (refcnt_lock s)
           (upd (refcnt_count s) (kmem_freelist s / PGSIZE) 1)
           (memset (kmem_freelist s) 5 PGSIZE (mem s))
           (EvCount (kmem_freelist s / PGSIZE)
              :: EvRelease KmemLock :: EvFreelist :: EvFreelist
              :: EvAcquire KmemLock :: trace s)).
Proof.
  intros H. unfold kalloc, bind, acquire, get_freelist. simpl.
  destruct (Z.eqb_spec (kmem_freelist s) 0); [contradiction|]. reflexivity.
Qed.

Lemma kalloc_returns_head s : exists s', kalloc s = Ret (kmem_freelist s) s'.
Proof.
  destruct (Z.eq_dec (kmem_freelist s) 0) as [H|H].
  - rewrite (kalloc_empty s H), H. eexists. reflexivity.
  - rewrite (kalloc_pop s H). eexists. reflexivity.
Qed.

(** ** Reading the table *)

Lemma in_table_true i :
  0 <= i < PHYSTOP / PGSIZE -> in_table i = true.
Proof.
  intros H. unfold in_table.
  destruct (Z.leb_spec 0 i); [|lia].
  destruct (Z.ltb_spec i (PHYSTOP / PGSIZE)); [reflexivity|lia].
Qed.

(** Within the table [getrefcnt] returns the entry and only records
    the access. *)
Lemma getrefcnt_ret pa s :
  in_table (pa / PGSIZE) = true ->
  getrefcnt pa s =
  Ret (refcnt_count s (pa / PGSIZE)) (record (EvCount (pa / PGSIZE)) s).
Proof. intros H. unfold getrefcnt. rewrite H. reflexivity. Qed.

(** [getrefcnt] returns only for an index of the table. *)
Lemma getrefcnt_inv pa s c s' :
  getrefcnt pa s = Ret c s' ->
  in_table (pa / PGSIZE) = true /\
  c = refcnt_count s (pa / PGSIZE) /\
  s' = record (EvCount (pa / PGSIZE)) s.
Proof.
  unfold getrefcnt. destruct (in_table (pa / PGSIZE)); [|discriminate].
  intros H. inversion H. auto.
Qed.

Lemma run_getref_inv pa s s' :
  run (Getref pa) s = Ret tt s' ->
  in_table (pa / PGSIZE) = true /\ s' = record (EvCount (pa / PGSIZE)) s.
Proof.
  cbn [run]. unfold bind. intros H.
  destruct (getrefcnt pa s) as [c s1| | |] eqn:Hg; try discriminate.
  inversion H; subst s1. apply getrefcnt_inv in Hg. tauto.
Qed.


(** ** Reference count of a fresh page *)

(** C1: whenever [kalloc] returns a page (a non-null address), the
    reference count of that page in the state right after the call is
    exactly 1; [getrefcnt] on that page can then return nothing but 1,
    and it does return 1 when the page is one the table has an entry
    for. *)
Theorem kalloc_refcnt_one s r s' :
  kalloc s = Ret r s' -> r <> 0 ->
  refcnt_count s' (r / PGSIZE) = 1 /\
  (forall c s'', getrefcnt r s' = Ret c s'' -> c = 1) /\
  (0 <= r / PGSIZE < PHYSTOP / PGSIZE ->
   exists s'', getrefcnt r s' = Ret 1 s'').
Proof.
  intros Hk Hr.
  assert (Hone : refcnt_count s' (r / PGSIZE) = 1).
  { destruct (Z.eq_dec (kmem_freelist s) 0) as [H|H].
    - rewrite (kalloc_empty s H) in Hk. congruence.
    - rewrite (kalloc_pop s H) in Hk. inversion Hk; subst r s'; clear Hk.
      cbn [refcnt_count]. apply upd_same. }
  split; [exact Hone|]. split.
  - intros c s'' Hg. apply getrefcnt_inv in Hg.
    destruct Hg as [_ [-> _]]. exact Hone.
  - intros Hin. rewrite (getrefcnt_ret r s' (in_table_true _ Hin)), Hone.
    eexists. reflexivity.
Qed.

(** ** Fatal aborts *)

Lemma kfree_no_panic pa s :
  page_ok pa -> exists s', kfree pa s = Ret tt s'.
Proof.
  intros Hok.
  destruct (Z.lt_ge_cases 0 (wrap_int (refcnt_count s (pa / PGSIZE) - 1))).
  - rewrite kfree_shared by assumption. eexists. reflexivity.
  - rewrite kfree_last by assumption. eexists. reflexivity.
Qed.

Lemma page_ok_dec pa : {page_ok pa} + {~ page_ok pa}.
Proof.
  unfold page_ok.
  destruct (Z.eq_dec (pa mod PGSIZE) 0); [|right; tauto].
  destruct (Z_le_dec end_ pa); [|right; tauto].
  destruct (Z_lt_dec pa PHYSTOP); [left|right]; tauto.
Qed.

Lemma table_check_cases pa :
  (pa mod PGSIZE = 0 /\ pa < PHYSTOP) \/
  (negb (pa mod PGSIZE =? 0) || (PHYSTOP <=? pa) = true /\
   (pa mod PGSIZE <> 0 \/ PHYSTOP <= pa)).
Proof.
  destruct (Z.eqb_spec (pa mod PGSIZE) 0); simpl; [|right; tauto].
  destruct (Z.leb_spec PHYSTOP pa); [right|left]; tauto.
Qed.

(** C6: [kfree] stops in [panic], with the state as it was at the
    call, exactly when the address is not page-aligned, lies below
    [end] or is at or above [PHYSTOP]; [increfcnt] and [decrefcnt] do
    so exactly when the address is not page-aligned or is at or above
    [PHYSTOP]. *)
Theorem panic_conditions pa s :
  ((exists msg s', kfree pa s = Panic msg s') <->
   (pa mod PGSIZE <> 0 \/ pa < end_ \/ PHYSTOP <= pa)) /\
  (forall msg s', kfree pa s = Panic msg s' -> s' = s) /\
  ((exists msg s', increfcnt pa s = Panic msg s') <->
   (pa mod PGSIZE <> 0 \/ PHYSTOP <= pa)) /\
  (forall msg s', increfcnt pa s = Panic msg s' -> s' = s) /\
  ((exists msg s', decrefcnt pa s = Panic msg s') <->
   (pa mod PGSIZE <> 0 \/ PHYSTOP <= pa)) /\
  (forall msg s', decrefcnt pa s = Panic msg s' -> s' = s).
Proof.
  assert (Hk : forall msg s', kfree pa s = Panic msg s' ->
                 ~ page_ok pa /\ s' = s).
  { intros msg s' H. destruct (page_ok_dec pa) as [Hok|Hno].
    - destruct (kfree_no_panic pa s Hok) as [s1 H1]. congruence.
    - rewrite (kfree_panics pa s Hno) in H. inversion H. tauto. }
  assert (Hi : forall msg s', increfcnt pa s = Panic msg s' ->
                 (pa mod PGSIZE <> 0 \/ PHYSTOP <= pa) /\ s' = s).
  { intros msg s' H.
    destruct (table_check_cases pa) as [[Ha Hhi]|[Hb Hc]].
    - rewrite (increfcnt_ret pa s Ha Hhi) in H. discriminate.
    - unfold increfcnt in H. rewrite Hb in H. inversion H. tauto. }
  assert (Hd : forall msg s', decrefcnt pa s = Panic msg s' ->
                 (pa mod PGSIZE <> 0 \/ PHYSTOP <= pa) /\ s' = s).
  { intros msg s' H.
    destruct (table_check_cases pa) as [[Ha Hhi]|[Hb Hc]].
    - rewrite (decrefcnt_ret pa s Ha Hhi) in H. discriminate.
    - unfold decrefcnt in H. rewrite Hb in H. inversion H. tauto. }
  repeat split.
  - intros [msg [s' H]]. apply Hk in H. unfold page_ok in H. lia.
  - intros H. exists "kfree"%string, s. apply kfree_panics.
    unfold page_ok. lia.
  - intros msg s' H. apply (Hk msg s' H).
  - intros [msg [s' H]]. apply (Hi msg s' H).
  - intros H. exists "increfcnt"%string, s.
    destruct (table_check_cases pa) as [[Ha Hhi]|[Hb Hc]]; [lia|].
    unfold increfcnt. rewrite Hb. reflexivity.
  - intros msg s' H. apply (Hi msg s' H).
  - intros [msg [s' H]]. apply (Hd msg s' H).
  - intros H. exists "decrefcnt"%string, s.
    destruct (table_check_cases pa) as [[Ha Hhi]|[Hb Hc]]; [lia|].
    unfold decrefcnt. rewrite Hb. reflexivity.
  - intros msg s' H. apply (Hd msg s' H).
Qed.

(** ** The chain of free pages *)

Lemma is_chain_frame m m' p l :
  is_chain m p l ->
  (forall q x, In q l -> q <= x < q + Z.of_nat PTRSIZE -> m' x = m x) ->
  is_chain m' p l.
Proof.
  induction 1 as [|p l Hp Hc IH]; intros Hsame.
  - constructor.
  - constructor; [exact Hp|].
    rewrite (load_le_ext PTRSIZE m m' p).
    + apply IH. intros q x Hq. apply Hsame. right. exact Hq.
    + intros x Hx. apply (Hsame p x); [left; reflexivity | exact Hx].
Qed.

Lemma is_chain_unique m p l :
  is_chain m p l -> forall l', is_chain m p l' -> l = l'.
Proof.
  induction 1 as [|p l Hp Hc IH]; intros l' H'; inversion H'; subst;
    try congruence.
  f_equal. apply IH. assumption.
Qed.

Lemma is_chain_head m p l :
  is_chain m p l -> (p = 0 /\ l = []) \/ (p <> 0 /\ exists l', l = p :: l').
Proof.
  destruct 1; [left; tauto | right]. split; [assumption|]. eexists. reflexivity.
Qed.

(** Following the chain for at least [length l] steps lists it. *)
Lemma walk_chain m p l :
  is_chain m p l -> forall n, (List.length l <= n)%nat -> walk n m p = l.
Proof.
  induction 1 as [|p l Hp Hc IH]; intros n Hn.
  - destruct n; reflexivity.
  - destruct n as [|n]; [simpl in Hn; lia|].
    cbn [walk]. destruct (Z.eqb_spec p 0); [contradiction|].
    f_equal. apply IH. simpl in Hn. lia.
Qed.

Lemma chain_split m l1 : forall p l2,
  is_chain m p (l1 ++ l2) -> exists q, is_seg m p l1 q /\ is_chain m q l2.
Proof.
  induction l1 as [|x l1 IH]; intros p l2 H.
  - exists p. split; [constructor | exact H].
  - inversion H as [|? ? Hp Hrest]; subst.
    destruct (IH _ _ Hrest) as [q [Hs Hc]].
    exists q. split; [constructor; assumption | exact Hc].
Qed.

Lemma is_seg_frame m m' p l q :
  is_seg m p l q ->
  (forall r x, In r l -> r <= x < r + Z.of_nat PTRSIZE -> m' x = m x) ->
  is_seg m' p l q.
Proof.
  induction 1 as [|p l q Hp Hs IH]; intros Hsame.
  - constructor.
  - constructor; [exact Hp|].
    rewrite (load_le_ext PTRSIZE m m' p).
    + apply IH. intros r x Hr. apply Hsame. right. exact Hr.
    + intros x Hx. apply (Hsame p x); [left; reflexivity | exact Hx].
Qed.

(** Walking one step further than a segment reaches its end. *)
Lemma walk_seg m p l q :
  is_seg m p l q -> q <> 0 -> walk (S (List.length l)) m p = l ++ [q].
Proof.
  induction 1 as [p|p l q Hp Hs IH]; intros Hq.
  - cbn. destruct (Z.eqb_spec p 0); [contradiction | reflexivity].
  - cbn [List.length walk app]. destruct (Z.eqb_spec p 0); [contradiction|].
    f_equal. apply IH. exact Hq.
Qed.


Section Frames.

Hypothesis HL : layout_ok L.

Lemma pgsize_pos : 0 < PGSIZE.
Proof. destruct HL. lia. Qed.

(** A page that [kfree] accepts is a non-null 64-bit pointer. *)
Lemma page_ok_pointer pa : page_ok pa -> 0 < pa < 2 ^ 64.
Proof.
  intros [_ Hr]. destruct HL as [H8 [He Hp]]. lia.
Qed.

(** The [next] field of a free page is not inside another page. *)
Lemma node_outside_page r q x :
  r mod PGSIZE = 0 -> q mod PGSIZE = 0 -> q <> r ->
  q <= x < q + Z.of_nat PTRSIZE ->
  x < r \/ r + PGSIZE <= x.
Proof.
  intros Hr Hq Hne Hx. destruct HL as [H8 _].
  change (Z.of_nat PTRSIZE) with 8 in Hx.
  destruct (aligned_apart q r pgsize_pos Hq Hr Hne); lia.
Qed.

Lemma chain_memset m p l r c :
  is_chain m p l -> Forall page_ok l -> r mod PGSIZE = 0 -> ~ In r l ->
  is_chain (memset r c PGSIZE m) p l.
Proof.
  intros Hc Hok Hr Hnot. apply (is_chain_frame m); [exact Hc|].
  intros q x Hq Hx. apply memset_outside.
  rewrite Forall_forall in Hok. destruct (Hok q Hq) as [Hqa _].
  apply (node_outside_page r q x Hr Hqa); [|exact Hx].
  intros ->. contradiction.
Qed.

Lemma chain_store_next m p l r v :
  is_chain m p l -> Forall page_ok l -> r mod PGSIZE = 0 -> ~ In r l ->
  is_chain (store_le PTRSIZE r v m) p l.
Proof.
  intros Hc Hok Hr Hnot. apply (is_chain_frame m); [exact Hc|].
  intros q x Hq Hx. apply store_le_outside.
  rewrite Forall_forall in Hok. destruct (Hok q Hq) as [Hqa _].
  assert (Hne : q <> r) by (intros ->; contradiction).
  pose proof (node_outside_page r q x Hr Hqa Hne Hx) as Hout.
  destruct HL as [H8 _]. change (Z.of_nat PTRSIZE) with 8. lia.
Qed.

(** A store into a page that is not on the list leaves the chain alone. *)
Lemma chain_store_byte m p l a b :
  is_chain m p l -> Forall page_ok l ->
  (forall q, In q l -> q / PGSIZE <> a / PGSIZE) ->
  is_chain (store_byte a b m) p l.
Proof.
  intros Hc Hok Hidx. apply (is_chain_frame m); [exact Hc|].
  intros q x Hq Hx. apply store_byte_other. intros ->.
  rewrite Forall_forall in Hok. destruct (Hok q Hq) as [Hqa _].
  apply (Hidx q Hq). symmetry.
  apply index_in_page; [exact pgsize_pos | exact Hqa |].
  destruct HL as [H8 _]. change (Z.of_nat PTRSIZE) with 8 in Hx. lia.
Qed.

(** The head of a well-formed free list is a 64-bit pointer. *)
Lemma head_is_pointer s l :
  freelist_is s l -> 0 <= kmem_freelist s < 2 ^ 64.
Proof.
  intros [Hc [_ Hok]]. destruct HL as [H8 [He Hp]].
  destruct (is_chain_head _ _ _ Hc) as [[H0 _]|[_ [l' ->]]].
  - rewrite H0. lia.
  - inversion Hok as [|? ? [_ Hr] _]; subst. lia.
Qed.

(** *** The free list under each operation *)

Lemma kalloc_nil s :
  freelist_is s [] ->
  exists s', kalloc s = Ret 0 s' /\ freelist_is s' [] /\
             refcnt_count s' = refcnt_count s /\ mem s' = mem s.
Proof.
  intros [Hc _]. inversion Hc as [H0|]; subst.
  rewrite (kalloc_empty s) by congruence.
  eexists. split; [reflexivity|].
  repeat split; try constructor.
Qed.

Lemma kalloc_cons s r l :
  freelist_is s (r :: l) ->
  exists s', kalloc s = Ret r s' /\ r <> 0 /\ freelist_is s' l /\
             refcnt_count s' = upd (refcnt_count s) (r / PGSIZE) 1 /\
             mem s' = memset r 5 PGSIZE (mem s).
Proof.
  intros [Hc [Hnd Hok]].
  inversion Hc as [|p l0 Hr Hrest Hp]; subst.
  rewrite (kalloc_pop s Hr).
  eexists. split; [reflexivity|]. split; [exact Hr|].
  inversion Hnd as [|? ? Hnotin Hnd']; subst.
  inversion Hok as [|? ? [Hra _] Hok']; subst.
  split; [|split; reflexivity].
  split; [|split; assumption]. cbn [mem kmem_freelist].
  apply chain_memset; assumption.
Qed.

Lemma kfree_push s l pa :
  freelist_is s l -> page_ok pa -> ~ In pa l ->
  wrap_int (refcnt_count s (pa / PGSIZE) - 1) <= 0 ->
  exists s', kfree pa s = Ret tt s' /\ freelist_is s' (pa :: l) /\
             refcnt_count s' =
               upd (refcnt_count s) (pa / PGSIZE)
                   (wrap_int (refcnt_count s (pa / PGSIZE) - 1)).
Proof.
  intros Hfl Hpa Hnotin Hc.
  pose proof (head_is_pointer s l Hfl) as Hhead.
  destruct Hfl as [Hch [Hnd Hok]].
  rewrite (kfree_last pa s Hpa Hc).
  eexists. split; [reflexivity|]. split; [|reflexivity].
  split; [|split].
  - cbn [mem kmem_freelist]. constructor.
    + destruct Hpa as [_ [Hlo _]]. destruct HL as [_ [He _]]. lia.
    + rewrite load_store_next by exact Hhead.
      apply chain_store_next; try assumption; [|apply Hpa].
      apply chain_memset; try assumption. apply Hpa.
  - constructor; assumption.
  - constructor; assumption.
Qed.

Lemma kfree_keep s l pa :
  freelist_is s l -> page_ok pa ->
  0 < wrap_int (refcnt_count s (pa / PGSIZE) - 1) ->
  exists s', kfree pa s = Ret tt s' /\ freelist_is s' l /\
             kmem_freelist s' = kmem_freelist s /\ mem s' = mem s /\
             refcnt_count s' =
               upd (refcnt_count s) (pa / PGSIZE)
                   (wrap_int (refcnt_count s (pa / PGSIZE) - 1)).
Proof.
  intros Hfl Hpa Hc. rewrite (kfree_shared pa s Hpa Hc).
  eexists. split; [reflexivity|]. repeat split; apply Hfl.
Qed.


Lemma kfree_ret_ok pa s s' : kfree pa s = Ret tt s' -> page_ok pa.
Proof.
  intros H. destruct (page_ok_dec pa) as [Hok|Hno]; [exact Hok|].
  rewrite (kfree_panics pa s Hno) in H. discriminate.
Qed.

Lemma kalloc_pop_inv s r s' :
  kalloc s = Ret r s' -> r <> 0 ->
  kmem_freelist s = r /\
  kmem_freelist s' = load_le PTRSIZE (mem s) r /\
  refcnt_count s' = upd (refcnt_count s) (r / PGSIZE) 1 /\
  mem s' = memset r 5 PGSIZE (mem s).
Proof.
  intros Hk Hr.
  destruct (Z.eq_dec (kmem_freelist s) 0) as [H|H].
  - rewrite (kalloc_empty s H) in Hk. congruence.
  - rewrite (kalloc_pop s H) in Hk. inversion Hk; subst r s'.
    repeat split.
Qed.

(** [kfree] of the only reference makes the page the head of the list,
    with the old head in its [next] field. *)
Lemma kfree_sole pa s s' :
  refcnt_count s (pa / PGSIZE) = 1 -> kfree pa s = Ret tt s' ->
  page_ok pa /\ kmem_freelist s' = pa /\
  load_le PTRSIZE (mem s') pa = kmem_freelist s mod 2 ^ 64 /\
  refcnt_count s' = upd (refcnt_count s) (pa / PGSIZE) 0.
Proof.
  intros Hc Hk. pose proof (kfree_ret_ok pa s s' Hk) as Hok.
  rewrite kfree_last in Hk by (rewrite ?Hc; try assumption; cbn; lia).
  inversion Hk; subst s'; clear Hk. cbn [kmem_freelist mem refcnt_count].
  rewrite load_store_le, Hc. repeat split; apply Hok.
Qed.

(** ** Stack order *)

(** C3: allocate [A], then [B], release [A] and then [B] (each held
    once, so each release brings the count to 0); the next two
    allocations return [B] first and then [A]. *)
Theorem stack_order s0 A B s1 s2 s3 s4 :
  kalloc s0 = Ret A s1 -> A <> 0 ->
  kalloc s1 = Ret B s2 -> B <> 0 ->
  A <> B ->
  kfree A s2 = Ret tt s3 ->
  kfree B s3 = Ret tt s4 ->
  refcnt_count s3 (A / PGSIZE) = 0 /\
  refcnt_count s4 (B / PGSIZE) = 0 /\
  exists s5 s6, kalloc s4 = Ret B s5 /\ kalloc s5 = Ret A s6.
Proof.
  intros Ha HA Hb HB Hne Hfa Hfb.
  destruct (kalloc_pop_inv _ _ _ Ha HA) as [_ [_ [Hc1 _]]].
  destruct (kalloc_pop_inv _ _ _ Hb HB) as [_ [_ [Hc2 _]]].
  assert (HcA : refcnt_count s2 (A / PGSIZE) = 1).
  { rewrite Hc2, Hc1. unfold upd.
    destruct (A / PGSIZE =? B / PGSIZE); [reflexivity|].
    rewrite Z.eqb_refl. reflexivity. }
  destruct (kfree_sole _ _ _ HcA Hfa) as [HokA [_ [_ Hc3]]].
  pose proof (kfree_ret_ok _ _ _ Hfb) as HokB.
  assert (Hidx : B / PGSIZE <> A / PGSIZE).
  { destruct HL as [H8 _].
    apply aligned_index_ne; [lia | apply HokB | apply HokA | congruence]. }
  assert (HcB : refcnt_count s3 (B / PGSIZE) = 1).
  { rewrite Hc3, upd_other by exact Hidx. rewrite Hc2. apply upd_same. }
  destruct (kfree_sole _ _ _ HcB Hfb) as [_ [Hh4 [Hn4 Hc4]]].
  destruct (kfree_sole _ _ _ HcA Hfa) as [_ [Hh3 _]].
  split; [rewrite Hc3; apply upd_same|].
  split; [rewrite Hc4; apply upd_same|].
  assert (H4 : kmem_freelist s4 <> 0) by congruence.
  rewrite (kalloc_pop s4 H4), Hh4. eexists. eexists.
  split; [reflexivity|].
  rewrite kalloc_pop; cbn [kmem_freelist]; rewrite Hn4, Hh3.
  - rewrite Z.mod_small; [reflexivity|].
    pose proof (page_ok_pointer A HokA). lia.
  - rewrite Z.mod_small; [exact HA|].
    pose proof (page_ok_pointer A HokA). lia.
Qed.


(** ** Shared pages *)

(** C4: [kfree] of a page whose count is above 1 lowers the count by
    one and changes neither the head of the free list nor any byte of
    memory, so the free list is what it was; [kfree] of a page whose
    count is 1 brings the count to 0 and makes the page the head of
    the free list, which the next [kalloc] returns. *)
Theorem shared_release pa s :
  page_ok pa ->
  (1 < refcnt_count s (pa / PGSIZE) <= INT_MAX ->
   exists s',
     kfree pa s = Ret tt s' /\
     refcnt_count s' (pa / PGSIZE) = refcnt_count s (pa / PGSIZE) - 1 /\
     (forall i, i <> pa / PGSIZE -> refcnt_count s' i = refcnt_count s i) /\
     kmem_freelist s' = kmem_freelist s /\
     mem s' = mem s /\
     (forall l, is_chain (mem s) (kmem_freelist s) l ->
                is_chain (mem s') (kmem_freelist s') l)) /\
  (refcnt_count s (pa / PGSIZE) = 1 ->
   exists s' s'',
     kfree pa s = Ret tt s' /\
     refcnt_count s' (pa / PGSIZE) = 0 /\
     kmem_freelist s' = pa /\
     kalloc s' = Ret pa s'').
Proof.
  intros Hok. split.
  - intros Hc.
    assert (Hw : wrap_int (refcnt_count s (pa / PGSIZE) - 1)
                 = refcnt_count s (pa / PGSIZE) - 1).
    { apply wrap_int_small. unfold INT_MIN, INT_MAX in *. lia. }
    rewrite (kfree_shared pa s Hok) by lia.
    eexists. split; [reflexivity|]. cbn [refcnt_count kmem_freelist mem].
    rewrite Hw, upd_same. repeat split.
    + intros i Hi. apply upd_other. exact Hi.
    + auto.
  - intros Hc.
    rewrite (kfree_last pa s Hok) by (rewrite Hc; cbn; lia).
    rewrite Hc. change (wrap_int (1 - 1)) with 0.
    eexists. eexists. split; [reflexivity|].
    cbn [refcnt_count kmem_freelist]. rewrite upd_same.
    split; [reflexivity|]. split; [reflexivity|].
    rewrite kalloc_pop; cbn [kmem_freelist].
    + reflexivity.
    + pose proof (page_ok_pointer pa Hok). lia.
Qed.


(** ** Scrubbing *)

Lemma kalloc_fills s r s' :
  kalloc s = Ret r s' -> r <> 0 -> page_filled (mem s') r 5.
Proof.
  intros Hk Hr. destruct (kalloc_pop_inv s r s' Hk Hr) as [_ [_ [_ Hm]]].
  intros a Ha. rewrite Hm. apply memset_inside. exact Ha.
Qed.

(** C8: when [kfree] brings the count of a page to 0 (or below), the
    whole page is filled with the byte 1 while the free list is still
    what it was, and only then is the page linked in; every page that
    [kalloc] returns is filled with the byte 5, a different pattern.
    So a byte stored into a page before its last release reads 5 once
    the page has been allocated again. *)
Theorem scrub_on_both_paths pa s :
  page_ok pa ->
  wrap_int (refcnt_count s (pa / PGSIZE) - 1) <= 0 ->
  (exists cnt s1 s2 s',
     decrefcnt pa s = Ret cnt s1 /\
     do_memset pa 1 PGSIZE s1 = Ret tt s2 /\
     page_filled (mem s2) pa 1 /\
     kmem_freelist s2 = kmem_freelist s /\
     (acquire KmemLock ;;
      head <- get_freelist ;;
      store_next pa head ;;
      set_freelist pa ;;
      release KmemLock) s2 = Ret tt s' /\
     kfree pa s = Ret tt s' /\
     kmem_freelist s' = pa /\
     (forall a, pa + 8 <= a < pa + PGSIZE -> mem s' a = 1)) /\
  (forall t r t', kalloc t = Ret r t' -> r <> 0 ->
                  page_filled (mem t') r 5) /\
  1 <> 5 /\
  (forall a b s1 s2,
     pa <= a < pa + PGSIZE ->
     poke a b s = Ret tt s1 ->
     kfree pa s1 = Ret tt s2 ->
     mem s1 a = b mod 256 /\
     exists s3, kalloc s2 = Ret pa s3 /\ mem s3 a = 5).
Proof.
  intros Hok Hc. split; [|split; [|split]].
  - destruct Hok as [Ha [Hlo Hhi]].
    rewrite (kfree_last pa s) by (unfold page_ok; tauto).
    rewrite (decrefcnt_ret pa s Ha Hhi).
    do 4 eexists. split; [reflexivity|]. split; [reflexivity|].
    cbn [mem kmem_freelist set_mem].
    split; [|split; [reflexivity|]].
    { intros a Hr. apply memset_inside. exact Hr. }
    split; [reflexivity|]. split; [reflexivity|]. split; [reflexivity|].
    intros a Hr. cbn [mem set_mem record set_lock]. rewrite store_le_outside.
    + apply memset_inside. lia.
    + right. change (Z.of_nat PTRSIZE) with 8. lia.
  - exact kalloc_fills.
  - discriminate.
  - intros a b s1 s2 Ha Hp Hk.
    inversion Hp; subst s1; clear Hp.
    split.
    { cbn [mem set_mem]. unfold store_byte. rewrite Z.eqb_refl. reflexivity. }
    rewrite (kfree_last pa) in Hk by assumption.
    inversion Hk; subst s2; clear Hk.
    rewrite kalloc_pop; cbn [kmem_freelist].
    + eexists. split; [reflexivity|]. cbn [mem].
      apply memset_inside. exact Ha.
    + pose proof (page_ok_pointer pa Hok). lia.
Qed.

End Frames.

(** ** Seeding the free list *)

Section Seeding.

Hypothesis Hpg : 0 < PGSIZE.

Lemma pages_from_In n : forall p x,
  In x (pages_from n p) <->
  exists i, 0 <= i < Z.of_nat n /\ x = p + i * PGSIZE.
Proof.
  induction n as [|n IH]; intros p x.
  - simpl. split; [tauto|]. intros [i [Hi _]]. lia.
  - cbn [pages_from In]. rewrite IH. split.
    + intros [<-|[i [Hi ->]]].
      * exists 0. lia.
      * exists (i + 1). lia.
    + intros [i [Hi ->]].
      destruct (Z.eq_dec i 0) as [->|Hne]; [left; lia|].
      right. exists (i - 1). lia.
Qed.

Lemma pages_from_NoDup n : forall p, NoDup (pages_from n p).
Proof.
  induction n as [|n IH]; intros p; cbn [pages_from]; constructor.
  - rewrite pages_from_In. intros [i [Hi He]]. nia.
  - apply IH.
Qed.

Lemma pages_from_nth n : forall p i x,
  nth_error (pages_from n p) i = Some x -> x = p + Z.of_nat i * PGSIZE.
Proof.
  induction n as [|n IH]; intros p i x H.
  - destruct i; discriminate.
  - destruct i as [|i]; cbn in H.
    + inversion H. lia.
    + apply IH in H. lia.
Qed.

Lemma pages_from_length n p : List.length (pages_from n p) = n.
Proof.
  revert p. induction n as [|n IH]; intros p; simpl; [|rewrite IH];
    reflexivity.
Qed.

(** The pages of a range are those that start at or after the rounded
    start, on a page boundary, and end at or before the end. *)
Lemma range_pages_In a b x :
  In x (range_pages a b) <->
  PGROUNDUP a <= x /\ x mod PGSIZE = 0 /\ x + PGSIZE <= b.
Proof.
  unfold range_pages. rewrite pages_from_In.
  pose proof (PGROUNDUP_aligned a Hpg) as Hal.
  set (p0 := PGROUNDUP a) in *.
  split.
  - intros [i [Hi ->]].
    assert (Hn : i + 1 <= (b - p0) / PGSIZE) by lia.
    assert (Hm : PGSIZE * ((b - p0) / PGSIZE) <= b - p0).
    { apply Z.mul_div_le. exact Hpg. }
    split; [nia|]. split; [|nia].
    rewrite Z.mod_add by lia. exact Hal.
  - intros [Hlo [Hx Hhi]].
    exists ((x - p0) / PGSIZE).
    assert (Hd : x - p0 = PGSIZE * ((x - p0) / PGSIZE)).
    { apply aligned_eq. rewrite Zminus_mod, Hx, Hal. reflexivity. }
    assert (H0 : 0 <= (x - p0) / PGSIZE) by (apply Z.div_pos; lia).
    assert (Hk : (x - p0) / PGSIZE + 1 <= (b - p0) / PGSIZE).
    { apply Z.div_le_lower_bound; [exact Hpg|]. lia. }
    split; [lia|]. lia.
Qed.

(** With enough fuel the loop of [freerange] is [kfree] on each whole
    page from [p] up to [pa_end], in ascending order. *)
Lemma freerange_loop_pages pa_end n : forall p fuel s,
  0 <= p -> p + PGSIZE < 2 ^ 64 -> pa_end + PGSIZE < 2 ^ 64 ->
  n = Z.to_nat ((pa_end - p) / PGSIZE) ->
  (n < fuel)%nat ->
  freerange_loop fuel p pa_end s = kfree_all (pages_from n p) s.
Proof.
  induction n as [|n IH]; intros p fuel s Hp Hp64 He64 Hn Hfuel;
    (destruct fuel as [|fuel]; [lia|]); cbn [freerange_loop].
  - rewrite wrap_uint64_small by lia.
    destruct (Z.leb_spec (p + PGSIZE) pa_end); [|reflexivity].
    assert (1 <= (pa_end - p) / PGSIZE)
      by (apply Z.div_le_lower_bound; lia).
    lia.
  - assert (Hq : (pa_end - p) / PGSIZE = Z.of_nat (S n)) by lia.
    assert (Hm : PGSIZE * ((pa_end - p) / PGSIZE) <= pa_end - p)
      by (apply Z.mul_div_le; exact Hpg).
    rewrite wrap_uint64_small by lia.
    destruct (Z.leb_spec (p + PGSIZE) pa_end); [|nia].
    cbn [pages_from kfree_all]. unfold bind.
    destruct (kfree p s); try reflexivity.
    apply IH; try lia.
    replace (pa_end - (p + PGSIZE)) with (pa_end - p + (-1) * PGSIZE) by lia.
    rewrite Z.div_add by lia. lia.
Qed.

(** The loop returns only if it had the fuel to finish. *)
Lemma freerange_loop_fuel pa_end fuel : forall p s s',
  0 <= p -> p + PGSIZE < 2 ^ 64 -> pa_end + PGSIZE < 2 ^ 64 ->
  freerange_loop fuel p pa_end s = Ret tt s' ->
  (Z.to_nat ((pa_end - p) / PGSIZE) < fuel)%nat.
Proof.
  induction fuel as [|fuel IH]; intros p s s' Hp Hp64 He64 Hr;
    cbn [freerange_loop] in Hr; [discriminate|].
  rewrite wrap_uint64_small in Hr by lia.
  destruct (Z.leb_spec (p + PGSIZE) pa_end).
  - unfold bind in Hr. destruct (kfree p s) as [[] s1| | |]; try discriminate.
    apply IH in Hr; try lia.
    replace (pa_end - (p + PGSIZE)) with (pa_end - p + (-1) * PGSIZE)
      in Hr by lia.
    rewrite Z.div_add in Hr by lia.
    assert (1 <= (pa_end - p) / PGSIZE)
      by (apply Z.div_le_lower_bound; lia).
    lia.
  - assert ((pa_end - p) / PGSIZE <= 0).
    { destruct (Z.le_gt_cases 0 (pa_end - p)).
      - rewrite Z.div_small; lia.
      - pose proof (Z.div_lt_upper_bound (pa_end - p) PGSIZE 0 Hpg). lia. }
    lia.
Qed.

End Seeding.

(** ** The allocator invariant *)

Section Invariant.

Hypothesis HL : layout_ok L.

(** Counters of free pages survive an update of another page's slot. *)
Lemma free_count_upd s s' l i v :
  Forall page_ok l ->
  Forall (free_count s) l ->
  (forall p, In p l -> p / PGSIZE <> i) ->
  refcnt_count s' = upd (refcnt_count s) i v ->
  Forall (free_count s') l.
Proof.
  intros Hok Hfc Hidx Hupd. rewrite Forall_forall in *.
  intros p Hp. unfold free_count. rewrite Hupd, upd_other by auto.
  apply Hfc. exact Hp.
Qed.

Lemma counts_in_range_upd s s' i v :
  counts_in_range s -> INT_MIN <= v <= INT_MAX ->
  refcnt_count s' = upd (refcnt_count s) i v ->
  counts_in_range s'.
Proof.
  intros Hr Hv Hupd j. rewrite Hupd. unfold upd.
  destruct (j =? i); [exact Hv | apply Hr].
Qed.

(** A page with a positive counter has the slot of no free page. *)
Lemma owned_not_free s l i :
  Forall (free_count s) l -> 1 <= refcnt_count s i ->
  forall p, In p l -> p / PGSIZE <> i.
Proof.
  intros Hfc Hi p Hp Heq. rewrite Forall_forall in Hfc.
  destruct (Hfc p Hp) as [H|H]; rewrite Heq in H; lia.
Qed.

(** Distinct pages of the list have distinct slots. *)
Lemma other_pages_slots r l :
  page_ok r -> Forall page_ok l -> ~ In r l ->
  forall p, In p l -> p / PGSIZE <> r / PGSIZE.
Proof.
  intros Hr Hok Hnot p Hp. rewrite Forall_forall in Hok.
  apply aligned_index_ne; [exact (pgsize_pos HL) | apply (Hok p Hp) | apply Hr |].
  intros ->. contradiction.
Qed.

(** Seeding: [kfree] on fresh ascending pages pushes each of them. *)
Lemma kfree_all_fresh n : forall p s l,
  freelist_is s l -> Forall (free_count s) l -> counts_in_range s ->
  (forall x, In x l -> x < p) ->
  (forall x, In x (pages_from n p) ->
             page_ok x /\ refcnt_count s (x / PGSIZE) = 0) ->
  exists s',
    kfree_all (pages_from n p) s = Ret tt s' /\
    freelist_is s' (rev (pages_from n p) ++ l) /\
    Forall (free_count s') (rev (pages_from n p) ++ l) /\
    counts_in_range s'.
Proof.
  induction n as [|n IH]; intros p s l Hfl Hfc Hr Hlt Hfresh.
  - exists s. cbn. auto.
  - cbn [pages_from kfree_all].
    destruct (Hfresh p) as [Hokp Hcp]; [left; reflexivity|].
    assert (Hnot : ~ In p l) by (intros Hin; apply Hlt in Hin; lia).
    destruct (kfree_push HL s l p Hfl Hokp Hnot) as [s1 [Hk [Hfl1 Hc1]]].
    { rewrite Hcp. change (wrap_int (0 - 1)) with (-1). lia. }
    rewrite Hcp in Hc1. change (wrap_int (0 - 1)) with (-1) in Hc1.
    unfold bind. rewrite Hk.
    destruct (IH (p + PGSIZE) s1 (p :: l)) as [s' [Hk' [Hfl' [Hfc' Hr']]]].
    + exact Hfl1.
    + constructor.
      * right. unfold free_count. rewrite Hc1. apply upd_same.
      * apply (free_count_upd s s1 l (p / PGSIZE) (-1)); try assumption.
        -- apply Hfl.
        -- apply other_pages_slots; [exact Hokp | apply Hfl | exact Hnot].
    + apply (counts_in_range_upd s s1 (p / PGSIZE) (-1)); try assumption.
      unfold INT_MIN, INT_MAX. lia.
    + pose proof (pgsize_pos HL).
      intros x [<-|Hx]; [lia|]. apply Hlt in Hx. lia.
    + intros x Hx.
      destruct (Hfresh x) as [Hokx Hcx]; [right; exact Hx|].
      split; [exact Hokx|].
      rewrite Hc1, upd_other; [exact Hcx|].
      apply aligned_index_ne; [exact (pgsize_pos HL) | apply Hokx | apply Hokp |].
      pose proof (pgsize_pos HL).
      apply pages_from_In in Hx. destruct Hx as [i [Hi ->]]. nia.
    + exists s'. split; [exact Hk'|].
      cbn [rev]. rewrite <- app_assoc. cbn [app]. auto.
Qed.

Lemma boot_freelist m0 : freelist_is (boot m0) [].
Proof. repeat split; constructor. Qed.

(** Pages of a range inside [[end, PHYSTOP)] pass the checks of [kfree]. *)
Lemma range_pages_ok a b x :
  end_ <= a -> b <= PHYSTOP -> In x (range_pages a b) -> page_ok x.
Proof.
  intros Ha Hb Hx. apply (range_pages_In (pgsize_pos HL)) in Hx.
  destruct Hx as [Hlo [Hal Hhi]].
  pose proof (PGROUNDUP_bounds a (pgsize_pos HL)). unfold page_ok. lia.
Qed.

(** [freerange] on a freshly booted kernel: it returns, and the free
    list is the pages of the range, last page first. *)
Lemma freerange_boot a b fuel m0 :
  end_ <= a <= b -> b <= PHYSTOP ->
  (List.length (range_pages a b) < fuel)%nat ->
  exists s,
    freerange fuel a b (boot m0) = Ret tt s /\
    freelist_is s (rev (range_pages a b)) /\
    Forall (free_count s) (rev (range_pages a b)) /\
    counts_in_range s.
Proof.
  intros Ha Hb Hfuel. destruct HL as [H8 [He Hp]].
  pose proof (PGROUNDUP_bounds a (pgsize_pos HL)) as Hru.
  unfold freerange.
  unfold range_pages in Hfuel. rewrite pages_from_length in Hfuel.
  rewrite (freerange_loop_pages (pgsize_pos HL) b _ _ fuel _) by (try reflexivity; lia).
  destruct (kfree_all_fresh
              (Z.to_nat ((b - PGROUNDUP a) / PGSIZE)) (PGROUNDUP a)
              (boot m0) []) as [s [Hk [Hfl [Hfc Hr]]]].
  - apply boot_freelist.
  - constructor.
  - intros i. cbn. unfold INT_MIN, INT_MAX. lia.
  - intros x [].
  - intros x Hx. split; [|reflexivity].
    apply (range_pages_ok a b); [lia | lia | exact Hx].
  - exists s. rewrite app_nil_r in Hfl, Hfc. auto.
Qed.


Lemma kinit_boot fuel m0 :
  kinit fuel (boot m0) = freerange fuel end_ PHYSTOP (boot m0).
Proof. reflexivity. Qed.

(** With enough fuel [kinit] returns. *)
Lemma kinit_returns fuel m0 :
  (List.length (range_pages end_ PHYSTOP) < fuel)%nat ->
  exists s,
    kinit fuel (boot m0) = Ret tt s /\
    freelist_is s (rev (range_pages end_ PHYSTOP)) /\
    Forall (free_count s) (rev (range_pages end_ PHYSTOP)) /\
    counts_in_range s.
Proof.
  intros Hfuel. rewrite kinit_boot.
  apply freerange_boot; [|lia|exact Hfuel].
  destruct HL as [_ [He _]]. lia.
Qed.

(** Whatever the fuel, a [kinit] that returns has seeded every page. *)
Lemma kinit_ret fuel m0 s :
  kinit fuel (boot m0) = Ret tt s ->
  freelist_is s (rev (range_pages end_ PHYSTOP)) /\
  Forall (free_count s) (rev (range_pages end_ PHYSTOP)) /\
  counts_in_range s.
Proof.
  intros Hk.
  assert (Hfuel : (List.length (range_pages end_ PHYSTOP) < fuel)%nat).
  { unfold range_pages. rewrite pages_from_length.
    rewrite kinit_boot in Hk. unfold freerange in Hk.
    pose proof (PGROUNDUP_bounds end_ (pgsize_pos HL)).
    destruct HL as [H8 [He Hp]].
    apply (freerange_loop_fuel (pgsize_pos HL)) in Hk; [exact Hk | lia ..]. }
  destruct (kinit_returns fuel m0 Hfuel) as [s0 [Hk0 H]].
  rewrite Hk0 in Hk. inversion Hk; subst. exact H.
Qed.

(** *** Each call of an owner keeps the invariant *)

Lemma kalloc_inv s r s' :
  allocator_inv s -> kalloc s = Ret r s' -> allocator_inv s'.
Proof.
  intros [l [Hfl [Hfc Hr]]] Hk. destruct l as [|q l].
  - destruct (kalloc_nil s Hfl) as [s1 [Hk1 [Hfl1 [Hc1 _]]]].
    rewrite Hk1 in Hk. inversion Hk; subst.
    exists []. split; [exact Hfl1|]. split; [constructor|].
    intros i. rewrite Hc1. apply Hr.
  - destruct (kalloc_cons HL s q l Hfl) as [s1 [Hk1 [_ [Hfl1 [Hc1 _]]]]].
    rewrite Hk1 in Hk. inversion Hk; subst.
    destruct Hfl as [_ [Hnd Hok]].
    inversion Hnd; subst. inversion Hok; subst. inversion Hfc; subst.
    exists l. split; [exact Hfl1|]. split.
    + apply (free_count_upd s s' l (r / PGSIZE) 1); try assumption.
      apply other_pages_slots; assumption.
    + apply (counts_in_range_upd s s' (r / PGSIZE) 1); try assumption.
      unfold INT_MIN, INT_MAX. lia.
Qed.

Lemma kfree_inv s pa s' :
  allocator_inv s -> 1 <= refcnt_count s (pa / PGSIZE) ->
  kfree pa s = Ret tt s' -> allocator_inv s'.
Proof.
  intros [l [Hfl [Hfc Hr]]] Hown Hk.
  pose proof (kfree_ret_ok pa s s' Hk) as Hok.
  pose proof (owned_not_free s l (pa / PGSIZE) Hfc Hown) as Hidx.
  assert (Hw : wrap_int (refcnt_count s (pa / PGSIZE) - 1)
               = refcnt_count s (pa / PGSIZE) - 1).
  { apply wrap_int_small. specialize (Hr (pa / PGSIZE)).
    unfold INT_MIN, INT_MAX in *. lia. }
  destruct (Z.lt_ge_cases 0 (wrap_int (refcnt_count s (pa / PGSIZE) - 1)))
    as [Hpos|Hzero].
  - destruct (kfree_keep s l pa Hfl Hok Hpos) as [s1 [Hk1 [Hfl1 [_ [_ Hc1]]]]].
    rewrite Hk1 in Hk. inversion Hk; subst.
    exists l. split; [exact Hfl1|]. split.
    + apply (free_count_upd s s' l _ _ (proj2 (proj2 Hfl)) Hfc Hidx Hc1).
    + apply (counts_in_range_upd s s' _ _ Hr (wrap_int_range _) Hc1).
  - assert (Hnot : ~ In pa l) by (intros Hin; apply (Hidx pa Hin); reflexivity).
    destruct (kfree_push HL s l pa Hfl Hok Hnot Hzero) as [s1 [Hk1 [Hfl1 Hc1]]].
    rewrite Hk1 in Hk. inversion Hk; subst.
    exists (pa :: l). split; [exact Hfl1|]. split.
    + constructor.
      * left. unfold free_count. rewrite Hc1, upd_same. lia.
      * apply (free_count_upd s s' l _ _ (proj2 (proj2 Hfl)) Hfc Hidx Hc1).
    + apply (counts_in_range_upd s s' _ _ Hr (wrap_int_range _) Hc1).
Qed.

Lemma increfcnt_inv s pa s' :
  allocator_inv s -> 1 <= refcnt_count s (pa / PGSIZE) ->
  increfcnt pa s = Ret tt s' -> allocator_inv s'.
Proof.
  intros [l [Hfl [Hfc Hr]]] Hown Hk.
  destruct (table_check_cases pa) as [[Ha Hhi]|[Hb _]];
    [|unfold increfcnt in Hk; rewrite Hb in Hk; discriminate].
  rewrite (increfcnt_ret pa s Ha Hhi) in Hk. inversion Hk; subst s'; clear Hk.
  exists l. split; [exact Hfl|]. split.
  - eapply free_count_upd; [apply Hfl | exact Hfc | | reflexivity].
    apply (owned_not_free s l); assumption.
  - eapply counts_in_range_upd; [exact Hr | | reflexivity].
    apply wrap_int_range.
Qed.

Lemma decrefcnt_inv s pa c s' :
  allocator_inv s -> 1 <= refcnt_count s (pa / PGSIZE) ->
  decrefcnt pa s = Ret c s' -> allocator_inv s'.
Proof.
  intros [l [Hfl [Hfc Hr]]] Hown Hk.
  destruct (table_check_cases pa) as [[Ha Hhi]|[Hb _]];
    [|unfold decrefcnt in Hk; rewrite Hb in Hk; discriminate].
  rewrite (decrefcnt_ret pa s Ha Hhi) in Hk. inversion Hk; subst c s'; clear Hk.
  exists l. split; [exact Hfl|]. split.
  - eapply free_count_upd; [apply Hfl | exact Hfc | | reflexivity].
    apply (owned_not_free s l); assumption.
  - eapply counts_in_range_upd; [exact Hr | | reflexivity].
    apply wrap_int_range.
Qed.

Lemma poke_inv s a b s' :
  allocator_inv s -> 1 <= refcnt_count s (a / PGSIZE) ->
  poke a b s = Ret tt s' -> allocator_inv s'.
Proof.
  intros [l [[Hch [Hnd Hok]] [Hfc Hr]]] Hown Hk.
  inversion Hk; subst s'; clear Hk.
  exists l. split; [|split; assumption].
  split; [|split; assumption]. cbn [mem kmem_freelist set_mem].
  apply chain_store_byte; try assumption.
  apply (owned_not_free s l); assumption.
Qed.

Lemma run_inv s c s' :
  allocator_inv s -> owned s c -> run c s = Ret tt s' -> allocator_inv s'.
Proof.
  intros Hinv Hown Hrun. destruct c as [|pa|pa|pa|pa|a b]; cbn in Hrun, Hown.
  - unfold bind in Hrun.
    destruct (kalloc s) as [r s1| | |] eqn:Hk; try discriminate.
    inversion Hrun; subst. eapply kalloc_inv; eauto.
  - eapply kfree_inv; eauto.
  - eapply increfcnt_inv; eauto.
  - unfold bind in Hrun.
    destruct (decrefcnt pa s) as [r s1| | |] eqn:Hk; try discriminate.
    inversion Hrun; subst. eapply decrefcnt_inv; eauto.
  - apply run_getref_inv in Hrun. destruct Hrun as [_ ->].
    destruct Hinv as [l [Hfl [Hfc Hr]]].
    exists l. auto.
  - eapply poke_inv; eauto.
Qed.



(** ** Exhaustion *)

Lemma chain_head_hd m p l : is_chain m p l -> p = hd 0 l.
Proof. destruct 1; reflexivity. Qed.

(** The head is null exactly when the list is empty. *)
Lemma freelist_null s l :
  freelist_is s l -> (kmem_freelist s = 0 <-> l = []).
Proof.
  intros [Hc _]. inversion Hc; subst; split; try congruence; tauto.
Qed.

(** As many calls of [kalloc] as there are free pages return them all,
    head first, each with count 1, and leave the list empty. *)
Lemma kalloc_many_drains l : forall s,
  freelist_is s l ->
  exists s',
    kalloc_many (List.length l) s = Ret l s' /\
    freelist_is s' [] /\
    (forall p, In p l -> refcnt_count s' (p / PGSIZE) = 1) /\
    (forall i, (forall p, In p l -> p / PGSIZE <> i) ->
               refcnt_count s' i = refcnt_count s i).
Proof.
  induction l as [|r l IH]; intros s Hfl.
  - exists s. cbn. repeat split; try apply Hfl; tauto.
  - destruct (kalloc_cons HL s r l Hfl) as [s1 [Hk [Hr [Hfl1 [Hc1 _]]]]].
    destruct (IH s1 Hfl1) as [s' [Hm [Hfl' [Hone Hrest]]]].
    exists s'. cbn [List.length kalloc_many]. unfold bind at 1. rewrite Hk.
    unfold bind at 1. rewrite Hm. split; [reflexivity|].
    split; [exact Hfl'|].
    destruct Hfl as [_ [Hnd Hok]].
    inversion Hnd; subst. inversion Hok; subst.
    split.
    + intros p [<-|Hp]; [|apply Hone; exact Hp].
      rewrite Hrest, Hc1; [apply upd_same|].
      apply other_pages_slots; assumption.
    + intros i Hi. rewrite Hrest by (intros p Hp; apply Hi; right; exact Hp).
      rewrite Hc1. apply upd_other. intros ->. apply (Hi r); [left|]; reflexivity.
Qed.

(** Releasing the only reference to a page makes it the next page
    that [kalloc] returns. *)
Lemma kfree_then_kalloc pa s :
  page_ok pa -> refcnt_count s (pa / PGSIZE) = 1 ->
  exists s' s'', kfree pa s = Ret tt s' /\ kalloc s' = Ret pa s''.
Proof.
  intros Hok Hc.
  rewrite (kfree_last pa s Hok) by (rewrite Hc; cbn; lia).
  eexists. eexists. split; [reflexivity|].
  rewrite kalloc_pop; cbn [kmem_freelist]; [reflexivity|].
  pose proof (page_ok_pointer HL pa Hok). lia.
Qed.

(** C5: [kalloc] never stops in [panic]; it returns the null pointer
    exactly when the head of the free list is null, which is when the
    free list is empty.  After seeding a range of [k] pages, [k] calls
    of [kalloc] return [k] pages, the next call returns null, and
    after [kfree] of any one of the [k] pages the next [kalloc]
    returns that page. *)
Theorem exhaustion a b fuel m0 :
  end_ <= a <= b -> b <= PHYSTOP ->
  (List.length (range_pages a b) < fuel)%nat ->
  (forall s, exists r s', kalloc s = Ret r s' /\
                          (r = 0 <-> kmem_freelist s = 0)) /\
  (forall s l, freelist_is s l -> (kmem_freelist s = 0 <-> l = [])) /\
  exists s1 ps s2 s3,
    freerange fuel a b (boot m0) = Ret tt s1 /\
    kalloc_many (List.length (range_pages a b)) s1 = Ret ps s2 /\
    List.length ps = List.length (range_pages a b) /\
    Forall (fun p => p <> 0) ps /\
    kalloc s2 = Ret 0 s3 /\
    forall p, In p ps ->
      exists s4 s5, kfree p s3 = Ret tt s4 /\ kalloc s4 = Ret p s5.
Proof.
  intros Ha Hb Hfuel. split; [|split].
  - intros s. destruct (kalloc_returns_head s) as [s' Hk].
    exists (kmem_freelist s), s'. split; [exact Hk | tauto].
  - exact freelist_null.
  - destruct (freerange_boot a b fuel m0 Ha Hb Hfuel) as [s1 [Hf [Hfl _]]].
    destruct (kalloc_many_drains _ s1 Hfl) as [s2 [Hm [Hfl2 [Hone _]]]].
    destruct (kalloc_nil s2 Hfl2) as [s3 [Hk3 [_ [Hc3 _]]]].
    rewrite length_rev in Hm.
    exists s1, (rev (range_pages a b)), s2, s3.
    split; [exact Hf|]. split; [exact Hm|].
    split; [apply length_rev|].
    destruct Hfl as [_ [_ Hok]].
    split.
    + rewrite Forall_forall in *. intros p Hp.
      pose proof (page_ok_pointer HL p (Hok p Hp)). lia.
    + split; [exact Hk3|]. intros p Hp.
      rewrite Forall_forall in Hok.
      apply kfree_then_kalloc; [exact (Hok p Hp)|].
      rewrite Hc3. apply Hone. exact Hp.
Qed.

(** ** The range initializer *)

Lemma hd_rev_last (l : list Z) d : hd d (rev l) = last l d.
Proof.
  induction l as [|x l _] using rev_ind; [reflexivity|].
  rewrite rev_app_distr, last_last. reflexivity.
Qed.


(** C7: [freerange] rounds the start up to the first page boundary at
    or above it and then is [kfree] on each page-aligned address [p]
    from there on with [p + PGSIZE <= pa_end], once each, in ascending
    order.  On a freshly booted kernel the pages end up on the free
    list in reverse, so the first [kalloc] returns the highest page of
    the range; in particular after [kinit], which seeds
    [[end, PHYSTOP)], the first [kalloc] returns the highest whole
    page below [PHYSTOP]. *)
Theorem freerange_seeds pa_start pa_end fuel :
  0 <= pa_start -> pa_start + 2 * PGSIZE <= 2 ^ 64 ->
  pa_end + PGSIZE < 2 ^ 64 ->
  (List.length (range_pages pa_start pa_end) < fuel)%nat ->
  (pa_start <= PGROUNDUP pa_start < pa_start + PGSIZE /\
   PGROUNDUP pa_start mod PGSIZE = 0) /\
  (forall s, freerange fuel pa_start pa_end s
             = kfree_all (range_pages pa_start pa_end) s) /\
  (forall p, In p (range_pages pa_start pa_end) <->
             PGROUNDUP pa_start <= p /\ p mod PGSIZE = 0 /\
             p + PGSIZE <= pa_end) /\
  NoDup (range_pages pa_start pa_end) /\
  (forall i j p q,
     nth_error (range_pages pa_start pa_end) i = Some p ->
     nth_error (range_pages pa_start pa_end) j = Some q ->
     (i < j)%nat -> p < q) /\
  (end_ <= pa_start <= pa_end -> pa_end <= PHYSTOP ->
   forall m0, exists s1 s2,
     freerange fuel pa_start pa_end (boot m0) = Ret tt s1 /\
     is_chain (mem s1) (kmem_freelist s1)
              (rev (range_pages pa_start pa_end)) /\
     kalloc s1 = Ret (last (range_pages pa_start pa_end) 0) s2) /\
  (forall m0 n,
     (List.length (range_pages end_ PHYSTOP) < n)%nat ->
     exists s1 s2,
       kinit n (boot m0) = Ret tt s1 /\
       is_chain (mem s1) (kmem_freelist s1)
                (rev (range_pages end_ PHYSTOP)) /\
       kalloc s1 = Ret (last (range_pages end_ PHYSTOP) 0) s2).
Proof.
  intros H0 H64 He64 Hfuel.
  pose proof (pgsize_pos HL) as Hpg.
  pose proof (PGROUNDUP_bounds pa_start Hpg) as Hru.
  split; [split; [exact Hru | apply PGROUNDUP_aligned; exact Hpg]|].
  split.
  { intros s. unfold freerange, range_pages.
    unfold range_pages in Hfuel. rewrite pages_from_length in Hfuel.
    apply (freerange_loop_pages Hpg); try lia. }
  split; [intros p; apply (range_pages_In Hpg)|].
  split; [apply (pages_from_NoDup Hpg)|].
  split.
  { unfold range_pages. intros i j p q Hi Hj Hij.
    apply pages_from_nth in Hi. apply pages_from_nth in Hj. subst. nia. }
  split.
  { intros Ha Hb m0.
    destruct (freerange_boot pa_start pa_end fuel m0 Ha Hb Hfuel)
      as [s1 [Hf [Hfl _]]].
    destruct (kalloc_returns_head s1) as [s2 Hk].
    exists s1, s2. split; [exact Hf|]. split; [apply Hfl|].
    rewrite Hk. f_equal.
    destruct Hfl as [Hc _]. rewrite (chain_head_hd _ _ _ Hc).
    apply hd_rev_last. }
  intros m0 n Hn.
  destruct (kinit_returns n m0 Hn) as [s1 [Hi [Hfl _]]].
  destruct (kalloc_returns_head s1) as [s2 Hk].
  exists s1, s2. split; [exact Hi|]. split; [apply Hfl|].
  rewrite Hk. f_equal.
  destruct Hfl as [Hc _]. rewrite (chain_head_hd _ _ _ Hc).
  apply hd_rev_last.
Qed.


(** ** Releasing a page twice *)

(** C10: [kfree] has no guard against a page whose count is already 0
    or negative.  For such a page that passes the three checks it does
    not stop in [panic]: the counter goes one further below zero and
    the page is linked in front of the old head.  If the page was on
    the free list already, the chain now comes back to it: following
    the [next] pointers from the head meets the page twice. *)
Theorem double_free pa s :
  page_ok pa ->
  INT_MIN < refcnt_count s (pa / PGSIZE) <= 0 ->
  exists s',
    kfree pa s = Ret tt s' /\
    refcnt_count s' (pa / PGSIZE) = refcnt_count s (pa / PGSIZE) - 1 /\
    refcnt_count s' (pa / PGSIZE) < 0 /\
    kmem_freelist s' = pa /\
    load_le PTRSIZE (mem s') pa = kmem_freelist s mod 2 ^ 64 /\
    forall l, freelist_is s l -> In pa l ->
      exists l1 l2,
        l = l1 ++ pa :: l2 /\
        walk (S (S (List.length l1))) (mem s') (kmem_freelist s')
        = pa :: l1 ++ [pa].
Proof.
  intros Hok Hc.
  assert (Hw : wrap_int (refcnt_count s (pa / PGSIZE) - 1)
               = refcnt_count s (pa / PGSIZE) - 1).
  { apply wrap_int_small. unfold INT_MIN, INT_MAX in *. lia. }
  rewrite (kfree_last pa s Hok) by lia.
  eexists. split; [reflexivity|].
  cbn [refcnt_count kmem_freelist mem]. rewrite upd_same, Hw.
  split; [reflexivity|]. split; [lia|]. split; [reflexivity|].
  split; [apply load_store_le|].
  intros l Hfl Hin.
  pose proof (head_is_pointer HL s l Hfl) as Hhead.
  destruct Hfl as [Hch [Hnd Hpages]].
  destruct (in_split pa l Hin) as [l1 [l2 ->]].
  exists l1, l2. split; [reflexivity|].
  apply NoDup_remove_2 in Hnd.
  destruct (chain_split _ _ _ _ Hch) as [q [Hseg Hrest]].
  assert (Hq : q = pa) by (inversion Hrest; reflexivity). subst q.
  pose proof (page_ok_pointer HL pa Hok) as Hpa.
  cbn [walk]. destruct (Z.eqb_spec pa 0); [lia|]. f_equal.
  rewrite load_store_next by exact Hhead.
  apply walk_seg; [|lia].
  apply (is_seg_frame (mem s)); [exact Hseg|].
  intros r x Hr Hx.
  assert (Hne : r <> pa).
  { intros ->. apply Hnd. apply in_or_app. left. exact Hr. }
  assert (Hra : r mod PGSIZE = 0).
  { rewrite Forall_forall in Hpages.
    apply (Hpages r). apply in_or_app. left. exact Hr. }
  destruct Hok as [Haligned _].
  pose proof (node_outside_page HL pa r x Haligned Hra Hne Hx) as Hout.
  destruct HL as [H8 _]. change (Z.of_nat PTRSIZE) with 8 in Hx.
  rewrite store_le_outside by (change (Z.of_nat PTRSIZE) with 8; lia).
  apply memset_outside. exact Hout.
Qed.

End Invariant.

(** ** Locking discipline *)

Lemma never_both_head km rc evs :
  never_both km rc evs = negb (km && rc) && never_both km rc evs.
Proof.
  destruct evs; cbn [never_both]; destruct (negb (km && rc)); reflexivity.
Qed.

Lemma never_both_app e1 : forall km rc e2,
  never_both km rc (e1 ++ e2) =
  never_both km rc e1 &&
  never_both (fst (locks_after km rc e1)) (snd (locks_after km rc e1)) e2.
Proof.
  induction e1 as [|e e1 IH]; intros km rc e2.
  - cbn [app never_both locks_after fst snd].
    rewrite andb_true_r. apply never_both_head.
  - cbn [app]. destruct e as [[]|[]| |i]; cbn [never_both locks_after];
      rewrite IH, andb_assoc; reflexivity.
Qed.

Lemma freelist_guarded_app e1 : forall km rc e2,
  freelist_guarded km (e1 ++ e2) =
  freelist_guarded km e1 &&
  freelist_guarded (fst (locks_after km rc e1)) e2.
Proof.
  induction e1 as [|e e1 IH]; intros km rc e2.
  - reflexivity.
  - cbn [app]. destruct e as [[]|[]| |i];
      cbn [freelist_guarded locks_after]; try apply IH.
    rewrite (IH km rc), andb_assoc. reflexivity.
Qed.

Lemma locks_after_app e1 : forall km rc e2,
  locks_after km rc (e1 ++ e2) =
  locks_after (fst (locks_after km rc e1)) (snd (locks_after km rc e1)) e2.
Proof.
  induction e1 as [|e e1 IH]; intros km rc e2.
  - reflexivity.
  - cbn [app]. destruct e as [[]|[]| |i]; cbn [locks_after]; apply IH.
Qed.

Lemma disciplined_app e1 e2 :
  disciplined e1 -> disciplined e2 -> disciplined (e1 ++ e2).
Proof.
  intros [Hn1 [Hf1 Hl1]] [Hn2 [Hf2 Hl2]]. unfold disciplined.
  rewrite never_both_app, (freelist_guarded_app e1 false false),
    locks_after_app, Hl1, Hn1, Hf1.
  cbn [fst snd andb]. auto.
Qed.

Lemma emitted_app s s' s'' e1 e2 :
  emitted s s' e1 -> emitted s' s'' e2 -> emitted s s'' (e1 ++ e2).
Proof.
  unfold emitted. intros H1 H2.
  rewrite H2, H1, rev_app_distr, app_assoc. reflexivity.
Qed.

(** The two histories of [kfree]. *)
Lemma kfree_events pa s s' :
  kfree pa s = Ret tt s' ->
  emitted s s'
    [EvAcquire RefcntLock; EvCount (pa / PGSIZE); EvCount (pa / PGSIZE);
     EvRelease RefcntLock] \/
  emitted s s'
    [EvAcquire RefcntLock; EvCount (pa / PGSIZE); EvCount (pa / PGSIZE);
     EvRelease RefcntLock;
     EvAcquire KmemLock; EvFreelist; EvFreelist; EvRelease KmemLock].
Proof.
  intros Hk. pose proof (kfree_ret_ok pa s s' Hk) as Hok.
  destruct (Z.lt_ge_cases 0 (wrap_int (refcnt_count s (pa / PGSIZE) - 1))).
  - rewrite kfree_shared in Hk by assumption.
    inversion Hk; subst s'. left. reflexivity.
  - rewrite kfree_last in Hk by assumption.
    inversion Hk; subst s'. right. reflexivity.
Qed.

Lemma kfree_disciplined pa s s' :
  kfree pa s = Ret tt s' ->
  exists evs, emitted s s' evs /\ disciplined evs /\
              count_guarded false evs = true.
Proof.
  intros Hk. destruct (kfree_events pa s s' Hk) as [H|H];
    eexists; (split; [exact H|]); repeat split.
Qed.

Lemma freerange_loop_disciplined fuel : forall p pa_end s s',
  freerange_loop fuel p pa_end s = Ret tt s' ->
  exists evs, emitted s s' evs /\ disciplined evs /\
              count_guarded false evs = true.
Proof.
  induction fuel as [|fuel IH]; intros p pa_end s s' Hr;
    cbn [freerange_loop] in Hr; [discriminate|].
  destruct (wrap_uint64 (p + PGSIZE) <=? pa_end).
  - unfold bind in Hr.
    destruct (kfree p s) as [[] s1| | |] eqn:Hk; try discriminate.
    destruct (kfree_disciplined p s s1 Hk) as [e1 [He1 [Hd1 Hg1]]].
    destruct (IH _ _ _ _ Hr) as [e2 [He2 [Hd2 Hg2]]].
    exists (e1 ++ e2). split; [eapply emitted_app; eauto|].
    split; [apply disciplined_app; assumption|].
    destruct (kfree_events p s s1 Hk) as [H|H];
      unfold emitted in H, He1; rewrite H in He1;
      apply app_inv_tail, rev_inj in He1; subst e1; exact Hg2.
  - inversion Hr; subst. exists []. repeat split.
Qed.

(** The two histories of [kalloc]. *)
Lemma kalloc_events s :
  exists r s',
    kalloc s = Ret r s' /\
    ((r = 0 /\
      emitted s s' [EvAcquire KmemLock; EvFreelist; EvRelease KmemLock]) \/
     (r <> 0 /\
      emitted s s'
        [EvAcquire KmemLock; EvFreelist; EvFreelist; EvRelease KmemLock;
         EvCount (r / PGSIZE)])).
Proof.
  destruct (Z.eq_dec (kmem_freelist s) 0) as [H|H].
  - rewrite (kalloc_empty s H). do 2 eexists. split; [reflexivity|].
    left. split; reflexivity.
  - rewrite (kalloc_pop s H). do 2 eexists. split; [reflexivity|].
    right. split; [exact H | reflexivity].
Qed.

Lemma table_op_events pa s :
  (forall s', increfcnt pa s = Ret tt s' ->
     emitted s s'
       [EvAcquire RefcntLock; EvCount (pa / PGSIZE); EvCount (pa / PGSIZE);
        EvRelease RefcntLock]) /\
  (forall c s', decrefcnt pa s = Ret c s' ->
     emitted s s'
       [EvAcquire RefcntLock; EvCount (pa / PGSIZE); EvCount (pa / PGSIZE);
        EvRelease RefcntLock]).
Proof.
  split; intros; destruct (table_check_cases pa) as [[Ha Hhi]|[Hb _]].
  - rewrite (increfcnt_ret pa s Ha Hhi) in H. inversion H. reflexivity.
  - unfold increfcnt in H. rewrite Hb in H. discriminate.
  - rewrite (decrefcnt_ret pa s Ha Hhi) in H. inversion H. reflexivity.
  - unfold decrefcnt in H. rewrite Hb in H. discriminate.
Qed.

(** C9, as the code has it: no operation holds [kmem.lock] and
    [refcnt.lock] together, the free list is only touched under
    [kmem.lock], and no lock is left held.  [kfree] finishes its
    decrement and releases [refcnt.lock] before it acquires
    [kmem.lock]; [kalloc] releases [kmem.lock] before it stores the
    count of the fresh page, and makes that store with no lock held;
    [increfcnt] and [decrefcnt] read and write the counter under
    [refcnt.lock]; [getrefcnt] reads the counter without acquiring
    any lock (and returns whenever the index is one of the table). *)
Theorem lock_discipline pa s :
  (forall c s', run c s = Ret tt s' ->
     exists evs, emitted s s' evs /\ disciplined evs) /\
  (forall fuel a b s', freerange fuel a b s = Ret tt s' ->
     exists evs, emitted s s' evs /\ disciplined evs /\
                 count_guarded false evs = true) /\
  (forall s', kfree pa s = Ret tt s' ->
     emitted s s'
       [EvAcquire RefcntLock; EvCount (pa / PGSIZE); EvCount (pa / PGSIZE);
        EvRelease RefcntLock] \/
     emitted s s'
       [EvAcquire RefcntLock; EvCount (pa / PGSIZE); EvCount (pa / PGSIZE);
        EvRelease RefcntLock;
        EvAcquire KmemLock; EvFreelist; EvFreelist; EvRelease KmemLock]) /\
  (exists r s',
     kalloc s = Ret r s' /\
     ((r = 0 /\
       emitted s s' [EvAcquire KmemLock; EvFreelist; EvRelease KmemLock]) \/
      (r <> 0 /\
       emitted s s'
         [EvAcquire KmemLock; EvFreelist; EvFreelist; EvRelease KmemLock;
          EvCount (r / PGSIZE)]))) /\
  (forall s', increfcnt pa s = Ret tt s' ->
     emitted s s'
       [EvAcquire RefcntLock; EvCount (pa / PGSIZE); EvCount (pa / PGSIZE);
        EvRelease RefcntLock]) /\
  (forall c s', decrefcnt pa s = Ret c s' ->
     emitted s s'
       [EvAcquire RefcntLock; EvCount (pa / PGSIZE); EvCount (pa / PGSIZE);
        EvRelease RefcntLock]) /\
  (forall c s', getrefcnt pa s = Ret c s' ->
                emitted s s' [EvCount (pa / PGSIZE)]) /\
  (0 <= pa / PGSIZE < PHYSTOP / PGSIZE ->
   exists c s', getrefcnt pa s = Ret c s' /\
                emitted s s' [EvCount (pa / PGSIZE)]).
Proof.
  split; [|split; [|split; [|split; [|split; [|split; [|split]]]]]].
  - intros c s' Hrun. destruct c as [|q|q|q|q|a b]; cbn [run] in Hrun.
    + unfold bind in Hrun. destruct (kalloc_events s) as [r [s1 [Hk He]]].
      rewrite Hk in Hrun. inversion Hrun; subst s1.
      destruct He as [[_ He]|[_ He]]; eexists; (split; [exact He|]);
        repeat split.
    + destruct (kfree_disciplined q s s' Hrun) as [evs [He [Hd _]]].
      exists evs. tauto.
    + eexists. split; [apply (table_op_events q s); exact Hrun|].
      repeat split.
    + unfold bind in Hrun.
      destruct (decrefcnt q s) as [c s1| | |] eqn:Hd; try discriminate.
      inversion Hrun; subst s1.
      eexists. split; [apply (proj2 (table_op_events q s) c); exact Hd|].
      repeat split.
    + apply run_getref_inv in Hrun. destruct Hrun as [_ ->].
      exists [EvCount (q / PGSIZE)].
      split; [reflexivity | repeat split].
    + inversion Hrun. exists []. split; [reflexivity | repeat split].
  - intros fuel a b s'. apply freerange_loop_disciplined.
  - apply kfree_events.
  - apply kalloc_events.
  - apply table_op_events.
  - apply table_op_events.
  - intros c s' Hg. apply getrefcnt_inv in Hg.
    destruct Hg as [_ [_ ->]]. reflexivity.
  - intros Hin. rewrite (getrefcnt_ret pa s (in_table_true _ Hin)).
    do 2 eexists. split; reflexivity.
Qed.

End Properties.

(** * Further properties of the operations *)

Section More.

Context {L : layout}.

(** ** The table operations *)

Lemma wrap_int_shift x y : wrap_int (wrap_int x + y) = wrap_int (x + y).
Proof.
  unfold wrap_int. f_equal.
  replace ((x + 2 ^ 31) mod 2 ^ 32 - 2 ^ 31 + y + 2 ^ 31)
    with ((x + 2 ^ 31) mod 2 ^ 32 + y) by lia.
  rewrite Zplus_mod_idemp_l. f_equal. lia.
Qed.

Lemma upd_upd_same f i v w j : upd (upd f i v) i w j = upd f i w j.
Proof. unfold upd. destruct (j =? i); reflexivity. Qed.

Lemma upd_id f i j : upd f i (f i) j = f j.
Proof. unfold upd. destruct (Z.eqb_spec j i); [subst|]; reflexivity. Qed.

(** X1: on an address that passes the checks, [increfcnt] followed by
    [decrefcnt] returns the count the page had before, and
    [decrefcnt] followed by [increfcnt] likewise restores it: every
    entry of the table is what it was, and neither call touches the
    free list or memory.  This holds for every [int] value of the
    counter. *)
Theorem incref_decref_roundtrip pa s :
  pa mod PGSIZE = 0 -> pa < PHYSTOP ->
  INT_MIN <= refcnt_count s (pa / PGSIZE) <= INT_MAX ->
  (exists s1 s2,
     increfcnt pa s = Ret tt s1 /\
     (refcnt_count s (pa / PGSIZE) < INT_MAX ->
      refcnt_count s1 (pa / PGSIZE) = refcnt_count s (pa / PGSIZE) + 1) /\
     decrefcnt pa s1 = Ret (refcnt_count s (pa / PGSIZE)) s2 /\
     (forall i, refcnt_count s2 i = refcnt_count s i) /\
     kmem_freelist s2 = kmem_freelist s /\ mem s2 = mem s) /\
  (exists c s1 s2,
     decrefcnt pa s = Ret c s1 /\
     (INT_MIN < refcnt_count s (pa / PGSIZE) ->
      c = refcnt_count s (pa / PGSIZE) - 1) /\
     refcnt_count s1 (pa / PGSIZE) = c /\
     increfcnt pa s1 = Ret tt s2 /\
     (forall i, refcnt_count s2 i = refcnt_count s i) /\
     kmem_freelist s2 = kmem_freelist s /\ mem s2 = mem s).
Proof.
  intros Ha Hhi Hr. split.
  - rewrite (increfcnt_ret pa s Ha Hhi). do 2 eexists.
    split; [reflexivity|]. cbn [refcnt_count]. rewrite upd_same.
    split.
    { intros Hlt. apply wrap_int_small. unfold INT_MIN, INT_MAX in *. lia. }
    rewrite decrefcnt_ret by assumption.
    cbn [refcnt_count kmem_freelist mem]. rewrite upd_same.
    replace (wrap_int (refcnt_count s (pa / PGSIZE) + 1) - 1)
      with (wrap_int (refcnt_count s (pa / PGSIZE) + 1) + -1) by lia.
    rewrite wrap_int_shift.
    replace (refcnt_count s (pa / PGSIZE) + 1 + -1)
      with (refcnt_count s (pa / PGSIZE)) by lia.
    rewrite (wrap_int_small _ Hr).
    split; [reflexivity|]. cbn [refcnt_count kmem_freelist mem].
    split; [|split; reflexivity].
    intros i. rewrite upd_upd_same. apply upd_id.
  - rewrite (decrefcnt_ret pa s Ha Hhi). do 3 eexists.
    split; [reflexivity|]. cbn [refcnt_count]. rewrite upd_same.
    split.
    { intros Hlt. apply wrap_int_small. unfold INT_MIN, INT_MAX in *. lia. }
    split; [reflexivity|].
    rewrite increfcnt_ret by assumption.
    cbn [refcnt_count kmem_freelist mem]. rewrite upd_same.
    rewrite wrap_int_shift.
    replace (refcnt_count s (pa / PGSIZE) - 1 + 1)
      with (refcnt_count s (pa / PGSIZE)) by lia.
    rewrite (wrap_int_small _ Hr).
    split; [reflexivity|]. cbn [refcnt_count kmem_freelist mem].
    split; [|split; reflexivity].
    intros i. rewrite upd_upd_same. apply upd_id.
Qed.


End More.

Section MoreFrames.

Context {L : layout}.

(** ** What an operation leaves alone *)

(** X3: [kalloc] changes no counter but that of the page it returns
    and no byte outside that page; when it returns the null pointer it
    changes no counter, no byte and not the (empty) free list. *)
Theorem kalloc_touches_only_its_page s r s' :
  kalloc s = Ret r s' ->
  (forall i, i <> r / PGSIZE -> refcnt_count s' i = refcnt_count s i) /\
  (forall a, a < r \/ r + PGSIZE <= a -> mem s' a = mem s a) /\
  (r = 0 ->
   refcnt_count s' = refcnt_count s /\ mem s' = mem s /\
   kmem_freelist s' = 0 /\ kmem_freelist s = 0).
Proof.
  intros Hk. destruct (Z.eq_dec (kmem_freelist s) 0) as [H|H].
  - rewrite (kalloc_empty s H) in Hk. inversion Hk; subst r s'.
    cbn [refcnt_count mem kmem_freelist]. repeat split; auto.
  - rewrite (kalloc_pop s H) in Hk. inversion Hk; subst r s'.
    cbn [refcnt_count mem kmem_freelist]. split; [|split].
    + intros i Hi. apply upd_other. exact Hi.
    + intros a Ha. apply memset_outside. exact Ha.
    + intros H0. contradiction.
Qed.

(** X4: when a page holds at least one pointer, [kfree] changes no
    counter but that of the page it is given and writes no byte outside
    that page; the head of the free list is afterwards either what it
    was or the page. *)
Theorem kfree_touches_only_its_page pa s s' :
  8 <= PGSIZE ->
  kfree pa s = Ret tt s' ->
  (forall i, i <> pa / PGSIZE -> refcnt_count s' i = refcnt_count s i) /\
  (forall a, a < pa \/ pa + PGSIZE <= a -> mem s' a = mem s a) /\
  (kmem_freelist s' = kmem_freelist s \/ kmem_freelist s' = pa).
Proof.
  intros H8 Hk. pose proof (kfree_ret_ok pa s s' Hk) as Hok.
  destruct (Z.lt_ge_cases 0 (wrap_int (refcnt_count s (pa / PGSIZE) - 1))).
  - rewrite kfree_shared in Hk by assumption. inversion Hk; subst s'.
    cbn [refcnt_count mem kmem_freelist]. split; [|split; auto].
    intros i Hi. apply upd_other. exact Hi.
  - rewrite kfree_last in Hk by assumption. inversion Hk; subst s'.
    cbn [refcnt_count mem kmem_freelist]. split; [|split; auto].
    + intros i Hi. apply upd_other. exact Hi.
    + intros a Ha. rewrite store_le_outside.
      * apply memset_outside. exact Ha.
      * change (Z.of_nat PTRSIZE) with 8. lia.
Qed.

End MoreFrames.

Section MoreLists.

Context {L : layout}.

Hypothesis HL : layout_ok L.

(** ** Allocation and release, composed *)

(** Sharing a page leaves the free list as it is. *)
Lemma increfcnt_freelist pa s s' l :
  increfcnt pa s = Ret tt s' -> freelist_is s l -> freelist_is s' l.
Proof.
  intros Hi Hfl.
  destruct (table_check_cases pa) as [[Ha Hhi]|[Hb _]];
    [|unfold increfcnt in Hi; rewrite Hb in Hi; discriminate].
  rewrite (increfcnt_ret pa s Ha Hhi) in Hi.
  inversion Hi; subst s'. exact Hfl.
Qed.

(** X5: on a well-formed free list headed by [r], [kalloc] followed by
    [kfree] of the page it returned gives the free list back as it
    was, page for page, with [r] at count 0. *)
Theorem kalloc_kfree_roundtrip s r l :
  freelist_is s (r :: l) ->
  exists s1 s2,
    kalloc s = Ret r s1 /\
    refcnt_count s1 (r / PGSIZE) = 1 /\
    freelist_is s1 l /\
    kfree r s1 = Ret tt s2 /\
    freelist_is s2 (r :: l) /\
    kmem_freelist s2 = kmem_freelist s /\
    refcnt_count s2 (r / PGSIZE) = 0 /\
    (forall i, i <> r / PGSIZE -> refcnt_count s2 i = refcnt_count s i).
Proof.
  intros Hfl.
  destruct (kalloc_cons HL s r l Hfl) as [s1 [Hk [Hr [Hfl1 [Hc1 _]]]]].
  destruct Hfl as [Hch [Hnd Hok]].
  inversion Hnd as [|? ? Hnot _]; subst.
  inversion Hok as [|? ? Hokr _]; subst.
  assert (Hone : refcnt_count s1 (r / PGSIZE) = 1)
    by (rewrite Hc1; apply upd_same).
  destruct (kfree_push HL s1 l r Hfl1 Hokr Hnot) as [s2 [Hf [Hfl2 Hc2]]].
  { rewrite Hone. change (wrap_int (1 - 1)) with 0. lia. }
  rewrite Hone in Hc2. change (wrap_int (1 - 1)) with 0 in Hc2.
  exists s1, s2.
  split; [exact Hk|]. split; [exact Hone|]. split; [exact Hfl1|].
  split; [exact Hf|]. split; [exact Hfl2|]. split; [|split].
  - destruct Hfl2 as [Hch2 _].
    rewrite (chain_head_hd _ _ _ Hch2), (chain_head_hd _ _ _ Hch).
    reflexivity.
  - rewrite Hc2. apply upd_same.
  - intros i Hi. rewrite Hc2, upd_other, Hc1, upd_other by exact Hi.
    reflexivity.
Qed.

(** X6: for a page held once and not on the free list, [kfree]
    followed by [kalloc] hands the same page out again: the free list
    and every counter are what they were, and the page is filled with
    the byte 5. *)
Theorem kfree_kalloc_roundtrip s l pa :
  freelist_is s l -> page_ok pa -> ~ In pa l ->
  refcnt_count s (pa / PGSIZE) = 1 ->
  exists s1 s2,
    kfree pa s = Ret tt s1 /\
    freelist_is s1 (pa :: l) /\
    kalloc s1 = Ret pa s2 /\
    freelist_is s2 l /\
    kmem_freelist s2 = kmem_freelist s /\
    (forall i, refcnt_count s2 i = refcnt_count s i) /\
    page_filled (mem s2) pa 5.
Proof.
  intros Hfl Hok Hnot Hone.
  destruct (kfree_push HL s l pa Hfl Hok Hnot) as [s1 [Hf [Hfl1 Hc1]]].
  { rewrite Hone. change (wrap_int (1 - 1)) with 0. lia. }
  destruct (kalloc_cons HL s1 pa l Hfl1) as [s2 [Hk [Hr [Hfl2 [Hc2 Hm2]]]]].
  exists s1, s2.
  split; [exact Hf|]. split; [exact Hfl1|]. split; [exact Hk|].
  split; [exact Hfl2|]. split; [|split].
  - destruct Hfl2 as [Hch2 _]. destruct Hfl as [Hch _].
    rewrite (chain_head_hd _ _ _ Hch2), (chain_head_hd _ _ _ Hch).
    reflexivity.
  - intros i. rewrite Hc2, Hc1, upd_upd_same, <- Hone. apply upd_id.
  - intros a Ha. rewrite Hm2. apply memset_inside. exact Ha.
Qed.

Lemma kfree_times_shared pa n : forall s,
  page_ok pa ->
  refcnt_count s (pa / PGSIZE) = Z.of_nat n + 1 ->
  Z.of_nat n + 1 <= INT_MAX ->
  exists s',
    kfree_times n pa s = Ret tt s' /\
    kmem_freelist s' = kmem_freelist s /\ mem s' = mem s /\
    refcnt_count s' (pa / PGSIZE) = 1 /\
    (forall i, i <> pa / PGSIZE -> refcnt_count s' i = refcnt_count s i).
Proof.
  induction n as [|n IH]; intros s Hok Hc Hmax.
  - exists s. cbn. repeat split; auto.
  - cbn [kfree_times]. unfold bind.
    assert (Hw : wrap_int (refcnt_count s (pa / PGSIZE) - 1) = Z.of_nat n + 1).
    { rewrite Hc, wrap_int_small; unfold INT_MIN, INT_MAX in *; lia. }
    rewrite (kfree_shared pa s Hok) by lia.
    rewrite Hw.
    match goal with |- context [kfree_times n pa ?t] =>
      destruct (IH t Hok) as [s' [Hk [Hh [Hm [H1 Hrest]]]]] end.
    + cbn [refcnt_count]. apply upd_same.
    + lia.
    + exists s'. split; [exact Hk|]. split; [exact Hh|].
      split; [exact Hm|]. split; [exact H1|].
      intros i Hi. rewrite (Hrest i Hi). cbn [refcnt_count].
      apply upd_other. exact Hi.
Qed.

(** X7: a page whose count is [c >= 1] takes exactly [c] calls of
    [kfree] to be freed: the first [c - 1] calls change neither the
    free list nor memory and leave the count at 1, and the next one
    links the page in at the head of the list with count 0. *)
Theorem kfree_countdown pa s l :
  page_ok pa -> freelist_is s l -> ~ In pa l ->
  1 <= refcnt_count s (pa / PGSIZE) <= INT_MAX ->
  exists s1 s2,
    kfree_times (Z.to_nat (refcnt_count s (pa / PGSIZE) - 1)) pa s
      = Ret tt s1 /\
    kmem_freelist s1 = kmem_freelist s /\ mem s1 = mem s /\
    refcnt_count s1 (pa / PGSIZE) = 1 /\
    kfree pa s1 = Ret tt s2 /\
    freelist_is s2 (pa :: l) /\
    refcnt_count s2 (pa / PGSIZE) = 0 /\
    (forall i, i <> pa / PGSIZE -> refcnt_count s2 i = refcnt_count s i).
Proof.
  intros Hok Hfl Hnot Hc.
  destruct (kfree_times_shared pa
              (Z.to_nat (refcnt_count s (pa / PGSIZE) - 1)) s Hok)
    as [s1 [Hk [Hh [Hm [H1 Hrest]]]]]; try lia.
  assert (Hfl1 : freelist_is s1 l).
  { destruct Hfl as [Hch Hmore]. split; [|exact Hmore].
    rewrite Hh, Hm. exact Hch. }
  destruct (kfree_push HL s1 l pa Hfl1 Hok Hnot) as [s2 [Hf [Hfl2 Hc2]]].
  { rewrite H1. change (wrap_int (1 - 1)) with 0. lia. }
  rewrite H1 in Hc2. change (wrap_int (1 - 1)) with 0 in Hc2.
  exists s1, s2.
  split; [exact Hk|]. split; [exact Hh|]. split; [exact Hm|].
  split; [exact H1|]. split; [exact Hf|]. split; [exact Hfl2|]. split.
  - rewrite Hc2. apply upd_same.
  - intros i Hi. rewrite Hc2, upd_other by exact Hi. apply Hrest. exact Hi.
Qed.


Lemma firstn_In (l : list Z) n p : In p (firstn n l) -> In p l.
Proof.
  intros H. rewrite <- (firstn_skipn n l). apply in_or_app. left. exact H.
Qed.

Lemma kalloc_many_firstn n : forall l s,
  freelist_is s l ->
  exists s',
    kalloc_many n s
      = Ret (firstn n l ++ repeat 0 (n - List.length l)) s' /\
    freelist_is s' (skipn n l) /\
    (forall p, In p (firstn n l) -> refcnt_count s' (p / PGSIZE) = 1) /\
    (forall i, (forall p, In p (firstn n l) -> p / PGSIZE <> i) ->
               refcnt_count s' i = refcnt_count s i).
Proof.
  induction n as [|n IH]; intros l s Hfl.
  - exists s. cbn. repeat split; try apply Hfl; tauto.
  - destruct l as [|r l].
    + destruct (kalloc_nil s Hfl) as [s1 [Hk [Hfl1 [Hc1 _]]]].
      destruct (IH [] s1 Hfl1) as [s' [Hm [Hfl' [_ Hrest]]]].
      rewrite firstn_nil, skipn_nil, Nat.sub_0_r in *.
      exists s'. cbn [kalloc_many]. unfold bind at 1. rewrite Hk.
      unfold bind at 1. rewrite Hm.
      split; [reflexivity|]. split; [exact Hfl'|].
      split; [intros p []|].
      intros i _. rewrite Hrest by (intros p []). rewrite Hc1. reflexivity.
    + destruct (kalloc_cons HL s r l Hfl) as [s1 [Hk [Hr [Hfl1 [Hc1 _]]]]].
      destruct (IH l s1 Hfl1) as [s' [Hm [Hfl' [Hone Hrest]]]].
      exists s'. cbn [kalloc_many]. unfold bind at 1. rewrite Hk.
      unfold bind at 1. rewrite Hm.
      split; [reflexivity|]. split; [exact Hfl'|].
      destruct Hfl as [_ [Hnd Hok]].
      inversion Hnd as [|? ? Hnot _]; subst.
      inversion Hok as [|? ? Hokr Hokl]; subst.
      cbn [firstn]. split.
      * intros p [<-|Hp]; [|apply Hone; exact Hp].
        rewrite Hrest, Hc1; [apply upd_same|].
        intros p Hp. apply (other_pages_slots HL r l Hokr Hokl Hnot).
        apply (firstn_In l n). exact Hp.
      * intros i Hi.
        rewrite Hrest by (intros p Hp; apply Hi; right; exact Hp).
        rewrite Hc1. apply upd_other. intros ->.
        apply (Hi r); [left|]; reflexivity.
Qed.

(** X8: on a well-formed free list [l], [n] calls of [kalloc] in a row
    return the first [n] pages of [l] in order, each non-null, all
    different and each with count 1, then the null pointer for every
    call past the end of the list; what stays on the free list is the
    rest of [l]. *)
Theorem kalloc_many_prefix n s l :
  freelist_is s l ->
  exists s',
    kalloc_many n s
      = Ret (firstn n l ++ repeat 0 (n - List.length l)) s' /\
    freelist_is s' (skipn n l) /\
    NoDup (firstn n l) /\
    Forall (fun p => p <> 0) (firstn n l) /\
    (forall p, In p (firstn n l) -> refcnt_count s' (p / PGSIZE) = 1).
Proof.
  intros Hfl.
  destruct (kalloc_many_firstn n l s Hfl) as [s' [Hm [Hfl' [Hone _]]]].
  exists s'. split; [exact Hm|]. split; [exact Hfl'|].
  destruct Hfl as [_ [Hnd Hok]].
  split; [|split; [|exact Hone]].
  - rewrite <- (firstn_skipn n l) in Hnd.
    apply NoDup_app_remove_r in Hnd. exact Hnd.
  - rewrite Forall_forall in *. intros p Hp.
    pose proof (page_ok_pointer HL p (Hok p (firstn_In l n p Hp))). lia.
Qed.

(** [kfree] on distinct pages that are each held once pushes them all. *)
Lemma kfree_all_owned ps : forall s l,
  freelist_is s l -> NoDup ps -> Forall page_ok ps ->
  (forall p, In p ps -> ~ In p l) ->
  (forall p, In p ps -> refcnt_count s (p / PGSIZE) = 1) ->
  exists s',
    kfree_all ps s = Ret tt s' /\
    freelist_is s' (rev ps ++ l) /\
    (forall p, In p ps -> refcnt_count s' (p / PGSIZE) = 0) /\
    (forall i, (forall p, In p ps -> p / PGSIZE <> i) ->
               refcnt_count s' i = refcnt_count s i).
Proof.
  induction ps as [|q ps IH]; intros s l Hfl Hnd Hok Hout Hone.
  - exists s. cbn. repeat split; try apply Hfl; tauto.
  - inversion Hnd as [|? ? Hq Hnd']; subst.
    inversion Hok as [|? ? Hokq Hok']; subst.
    destruct (kfree_push HL s l q Hfl Hokq) as [s1 [Hk [Hfl1 Hc1]]].
    + apply Hout. left. reflexivity.
    + rewrite Hone by (left; reflexivity).
      change (wrap_int (1 - 1)) with 0. lia.
    + rewrite Hone in Hc1 by (left; reflexivity).
      change (wrap_int (1 - 1)) with 0 in Hc1.
      pose proof (other_pages_slots HL q ps Hokq Hok' Hq) as Hslots.
      destruct (IH s1 (q :: l) Hfl1 Hnd' Hok') as [s' [Hk' [Hfl' [H0 Hrest]]]].
      * intros p Hp [<-|Hin]; [contradiction|].
        apply (Hout p); [right; exact Hp | exact Hin].
      * intros p Hp. rewrite Hc1, upd_other by (apply Hslots; exact Hp).
        apply Hone. right. exact Hp.
      * exists s'. cbn [kfree_all]. unfold bind. rewrite Hk.
        split; [exact Hk'|]. split.
        { cbn [rev]. rewrite <- app_assoc. exact Hfl'. }
        split.
        { intros p [<-|Hp]; [|apply H0; exact Hp].
          rewrite Hrest, Hc1; [apply upd_same|]. exact Hslots. }
        intros i Hi.
        rewrite Hrest by (intros p Hp; apply Hi; right; exact Hp).
        rewrite Hc1. apply upd_other. intros ->.
        apply (Hi q); [left|]; reflexivity.
Qed.

(** X9: after every page of a well-formed free list [l] has been
    allocated, releasing those pages once each, in any order [ps],
    puts all of them back: the free list is [ps] reversed (the page
    released last is the head) and each of them has count 0. *)
Theorem release_all s l ps :
  freelist_is s l -> Permutation l ps ->
  exists s1 s2,
    kalloc_many (List.length l) s = Ret l s1 /\
    freelist_is s1 [] /\
    kfree_all ps s1 = Ret tt s2 /\
    freelist_is s2 (rev ps) /\
    (forall p, In p ps -> refcnt_count s2 (p / PGSIZE) = 0).
Proof.
  intros Hfl Hperm.
  destruct (kalloc_many_drains HL l s Hfl) as [s1 [Hm [Hfl1 [Hone _]]]].
  destruct Hfl as [_ [Hnd Hok]].
  destruct (kfree_all_owned ps s1 [] Hfl1) as [s2 [Hk [Hfl2 [H0 _]]]].
  - apply (Permutation_NoDup Hperm). exact Hnd.
  - rewrite Forall_forall in *. intros p Hp. apply Hok.
    apply (Permutation_in p (Permutation_sym Hperm)). exact Hp.
  - intros p _ [].
  - intros p Hp. apply Hone.
    apply (Permutation_in p (Permutation_sym Hperm)). exact Hp.
  - rewrite app_nil_r in Hfl2.
    exists s1, s2. auto.
Qed.

End MoreLists.

Section MoreSeeding.

Context {L : layout}.

(** ** The edges of [freerange] *)

(** X10: when the range holds no whole page, [freerange] returns at
    once and changes nothing. *)
Theorem freerange_no_whole_page fuel pa_start pa_end s :
  0 < PGSIZE -> 0 <= pa_start -> pa_start + 2 * PGSIZE <= 2 ^ 64 ->
  pa_end < PGROUNDUP pa_start + PGSIZE ->
  (0 < fuel)%nat ->
  freerange fuel pa_start pa_end s = Ret tt s /\
  range_pages pa_start pa_end = [].
Proof.
  intros Hpg H0 H64 Hshort Hfuel.
  pose proof (PGROUNDUP_bounds pa_start Hpg) as Hru.
  split.
  - unfold freerange. destruct fuel as [|fuel]; [lia|].
    cbn [freerange_loop]. rewrite wrap_uint64_small by lia.
    destruct (Z.leb_spec (PGROUNDUP pa_start + PGSIZE) pa_end); [lia|].
    reflexivity.
  - unfold range_pages.
    replace (Z.to_nat ((pa_end - PGROUNDUP pa_start) / PGSIZE)) with O;
      [reflexivity|].
    assert ((pa_end - PGROUNDUP pa_start) / PGSIZE <= 0); [|lia].
    destruct (Z.le_gt_cases 0 (pa_end - PGROUNDUP pa_start)).
    + rewrite Z.div_small; lia.
    + pose proof (Z.div_lt_upper_bound (pa_end - PGROUNDUP pa_start)
                    PGSIZE 0 Hpg). lia.
Qed.

(** X11: when the range holds a whole page but its first page lies
    below [end] or at or above [PHYSTOP], [freerange] stops in the
    [panic] of [kfree] on that first page, before anything has
    changed. *)
Theorem freerange_outside_panics fuel pa_start pa_end s :
  0 < PGSIZE -> 0 <= pa_start -> pa_start + 2 * PGSIZE <= 2 ^ 64 ->
  PGROUNDUP pa_start + PGSIZE <= pa_end ->
  PGROUNDUP pa_start < end_ \/ PHYSTOP <= PGROUNDUP pa_start ->
  (0 < fuel)%nat ->
  freerange fuel pa_start pa_end s = Panic "kfree" s.
Proof.
  intros Hpg H0 H64 Hpage Hout Hfuel.
  pose proof (PGROUNDUP_bounds pa_start Hpg) as Hru.
  unfold freerange. destruct fuel as [|fuel]; [lia|].
  cbn [freerange_loop]. rewrite wrap_uint64_small by lia.
  destruct (Z.leb_spec (PGROUNDUP pa_start + PGSIZE) pa_end); [|lia].
  unfold bind. rewrite kfree_panics; [reflexivity|].
  unfold page_ok. lia.
Qed.

Hypothesis HL : layout_ok L.

(** ** The table after [kinit] *)

(** The seeded pages are the whole pages of [[end, PHYSTOP)]. *)
Lemma seeded_pages_In p :
  In p seeded_pages <->
  end_ <= p /\ p mod PGSIZE = 0 /\ p + PGSIZE <= PHYSTOP.
Proof.
  pose proof (pgsize_pos HL) as Hpg.
  pose proof (PGROUNDUP_bounds end_ Hpg) as Hru.
  unfold seeded_pages. rewrite (range_pages_In Hpg). split.
  - intros [Hlo [Ha Hhi]]. split; [lia | tauto].
  - intros [Hlo [Ha Hhi]]. split; [|tauto].
    apply PGROUNDUP_least; assumption.
Qed.

Lemma seeded_page_ok p : In p seeded_pages -> page_ok p.
Proof.
  intros Hp. apply seeded_pages_In in Hp.
  pose proof (pgsize_pos HL). unfold page_ok. lia.
Qed.

(** Seeding takes the counter of each fresh page from 0 to -1. *)
Lemma kfree_all_fresh_counts n : forall p s,
  (forall x, In x (pages_from n p) ->
             page_ok x /\ refcnt_count s (x / PGSIZE) = 0) ->
  exists s',
    kfree_all (pages_from n p) s = Ret tt s' /\
    (forall x, In x (pages_from n p) -> refcnt_count s' (x / PGSIZE) = -1) /\
    (forall i, (forall x, In x (pages_from n p) -> x / PGSIZE <> i) ->
               refcnt_count s' i = refcnt_count s i).
Proof.
  pose proof (pgsize_pos HL) as Hpg.
  induction n as [|n IH]; intros p s Hfresh.
  - exists s. cbn. repeat split; tauto.
  - cbn [pages_from kfree_all].
    destruct (Hfresh p) as [Hokp Hcp]; [left; reflexivity|].
    assert (Hslots : forall x, In x (pages_from n (p + PGSIZE)) ->
                               x / PGSIZE <> p / PGSIZE).
    { intros x Hx. destruct (Hfresh x) as [Hokx _]; [right; exact Hx|].
      apply aligned_index_ne; [exact Hpg | apply Hokx | apply Hokp |].
      apply pages_from_In in Hx. destruct Hx as [i [Hi ->]]. nia. }
    unfold bind. rewrite (kfree_last p s Hokp)
      by (rewrite Hcp; change (wrap_int (0 - 1)) with (-1); lia).
    rewrite Hcp. change (wrap_int (0 - 1)) with (-1).
    match goal with |- context [kfree_all _ ?t] =>
      destruct (IH (p + PGSIZE) t) as [s' [Hk [Hm1 Hrest]]] end.
    + intros x Hx. destruct (Hfresh x) as [Hokx Hcx]; [right; exact Hx|].
      split; [exact Hokx|]. cbn [refcnt_count].
      rewrite upd_other by (apply Hslots; exact Hx). exact Hcx.
    + exists s'. split; [exact Hk|]. split.
      * intros x [<-|Hx]; [|apply Hm1; exact Hx].
        rewrite Hrest by exact Hslots. cbn [refcnt_count]. apply upd_same.
      * intros i Hi.
        rewrite Hrest by (intros x Hx; apply Hi; right; exact Hx).
        cbn [refcnt_count]. apply upd_other. intros ->.
        apply (Hi p); [left|]; reflexivity.
Qed.

(** With enough fuel [kinit] is [kfree] on each seeded page. *)
Lemma kinit_kfree_all fuel m0 :
  (List.length seeded_pages < fuel)%nat ->
  kinit fuel (boot m0) = kfree_all seeded_pages (boot m0).
Proof.
  intros Hfuel. rewrite kinit_boot.
  pose proof (pgsize_pos HL) as Hpg.
  pose proof (PGROUNDUP_bounds end_ Hpg) as Hru.
  destruct HL as [H8 [He Hp]].
  unfold seeded_pages, range_pages in *.
  rewrite pages_from_length in Hfuel.
  unfold freerange. apply (freerange_loop_pages Hpg); try lia.
Qed.

Lemma kinit_counts fuel m0 s :
  kinit fuel (boot m0) = Ret tt s ->
  (forall p, In p seeded_pages -> refcnt_count s (p / PGSIZE) = -1) /\
  (forall i, (forall p, In p seeded_pages -> p / PGSIZE <> i) ->
             refcnt_count s i = 0).
Proof.
  intros Hk.
  assert (Hfuel : (List.length seeded_pages < fuel)%nat).
  { unfold seeded_pages, range_pages. rewrite pages_from_length.
    rewrite kinit_boot in Hk. unfold freerange in Hk.
    pose proof (PGROUNDUP_bounds end_ (pgsize_pos HL)).
    destruct HL as [H8 [He Hp]].
    apply (freerange_loop_fuel (pgsize_pos HL)) in Hk; [exact Hk | lia ..]. }
  rewrite (kinit_kfree_all fuel m0 Hfuel) in Hk.
  destruct (kfree_all_fresh_counts
              (Z.to_nat ((PHYSTOP - PGROUNDUP end_) / PGSIZE))
              (PGROUNDUP end_) (boot m0)) as [s' [Hk' [Hm1 Hrest]]].
  - intros x Hx. split; [|reflexivity]. apply seeded_page_ok. exact Hx.
  - unfold seeded_pages, range_pages in Hk. rewrite Hk' in Hk.
    inversion Hk; subst s'. split; [exact Hm1|].
    intros i Hi. rewrite (Hrest i Hi). reflexivity.
Qed.

(** X12: with enough fuel [kinit] on a freshly booted kernel returns;
    the free list is then the whole pages of [[end, PHYSTOP)],
    highest address first, the counter of each of them is -1 and
    every other counter is 0. *)
Theorem kinit_table fuel m0 :
  (List.length seeded_pages < fuel)%nat ->
  exists s,
    kinit fuel (boot m0) = Ret tt s /\
    freelist_is s (rev seeded_pages) /\
    (forall p, In p seeded_pages <->
               end_ <= p /\ p mod PGSIZE = 0 /\ p + PGSIZE <= PHYSTOP) /\
    (forall p, In p seeded_pages -> refcnt_count s (p / PGSIZE) = -1) /\
    (forall i, (forall p, In p seeded_pages -> p / PGSIZE <> i) ->
               refcnt_count s i = 0) /\
    (forall i j p q,
       nth_error (rev seeded_pages) i = Some p ->
       nth_error (rev seeded_pages) j = Some q ->
       (i < j)%nat -> q < p).
Proof.
  intros Hfuel.
  destruct (kinit_returns HL fuel m0 Hfuel) as [s [Hk [Hfl _]]].
  destruct (kinit_counts fuel m0 s Hk) as [Hm1 H0].
  exists s. split; [exact Hk|]. split; [exact Hfl|].
  split; [exact seeded_pages_In|]. split; [exact Hm1|]. split; [exact H0|].
  intros i j p q Hi Hj Hij.
  assert (Hli : (i < List.length seeded_pages)%nat).
  { rewrite <- length_rev. apply nth_error_Some. congruence. }
  assert (Hlj : (j < List.length seeded_pages)%nat).
  { rewrite <- length_rev. apply nth_error_Some. congruence. }
  rewrite nth_error_rev in Hi, Hj.
  apply Nat.ltb_lt in Hli, Hlj. rewrite Hli in Hi. rewrite Hlj in Hj.
  apply Nat.ltb_lt in Hli, Hlj.
  unfold seeded_pages, range_pages in *.
  apply pages_from_nth in Hi. apply pages_from_nth in Hj.
  pose proof (pgsize_pos HL). subst. nia.
Qed.


(** ** Where the pages that are handed out come from *)

Lemma aligned_same_slot p q :
  p mod PGSIZE = 0 -> q mod PGSIZE = 0 -> p / PGSIZE = q / PGSIZE -> p = q.
Proof.
  intros Hp Hq Heq.
  rewrite (aligned_eq p Hp), (aligned_eq q Hq), Heq. reflexivity.
Qed.

Lemma held_upd s s' i v :
  held_pages_seeded s ->
  refcnt_count s' = upd (refcnt_count s) i v ->
  (1 <= v -> exists p, In p seeded_pages /\ p / PGSIZE = i) ->
  held_pages_seeded s'.
Proof.
  intros Hheld Hupd Hi. unfold held_pages_seeded in *. intros j Hj.
  rewrite Hupd in Hj. unfold upd in Hj.
  destruct (Z.eqb_spec j i) as [Heq|Hne]; [rewrite Heq; apply Hi; exact Hj|].
  apply Hheld. exact Hj.
Qed.

Lemma kinit_seeded fuel m0 s :
  kinit fuel (boot m0) = Ret tt s -> seeded_inv s.
Proof.
  intros Hk. destruct (kinit_ret HL fuel m0 s Hk) as [Hfl _].
  destruct (kinit_counts fuel m0 s Hk) as [Hm1 H0].
  exists (rev seeded_pages). split; [exact Hfl|]. split.
  - intros x Hx. apply in_rev. exact Hx.
  - intros i Hi.
    destruct (in_dec Z.eq_dec i (map (fun p => p / PGSIZE) seeded_pages))
      as [Hin|Hnot].
    + apply in_map_iff in Hin. destruct Hin as [p [Hp Hin]].
      exists p. tauto.
    + rewrite H0 in Hi; [lia|].
      intros p Hp Heq. apply Hnot. apply in_map_iff. exists p. tauto.
Qed.

Lemma run_seeded s c s' :
  allocator_inv s -> seeded_inv s -> owned s c -> run c s = Ret tt s' ->
  seeded_inv s'.
Proof.
  intros [l [Hfl [Hfc Hr]]] [l0 [Hfl0 [Hincl Hheld]]] Hown Hrun.
  assert (l0 = l).
  { destruct Hfl as [Hc _]. destruct Hfl0 as [Hc0 _].
    apply (is_chain_unique _ _ _ Hc0 _ Hc). }
  subst l0.
  destruct c as [|pa|pa|pa|pa|a b]; cbn [run owned] in Hrun, Hown.
  - unfold bind in Hrun. destruct l as [|r l].
    + destruct (kalloc_nil s Hfl) as [s1 [Hk [Hfl1 [Hc1 _]]]].
      rewrite Hk in Hrun. inversion Hrun; subst s1.
      exists []. split; [exact Hfl1|]. split; [intros x []|].
      intros i Hi. rewrite Hc1 in Hi. apply Hheld. exact Hi.
    + destruct (kalloc_cons HL s r l Hfl) as [s1 [Hk [_ [Hfl1 [Hc1 _]]]]].
      rewrite Hk in Hrun. inversion Hrun; subst s1.
      exists l. split; [exact Hfl1|]. split.
      * intros x Hx. apply Hincl. right. exact Hx.
      * apply (held_upd s s' (r / PGSIZE) 1 Hheld Hc1).
        intros _. exists r. split; [apply Hincl; left|]; reflexivity.
  - pose proof (kfree_ret_ok pa s s' Hrun) as Hok.
    destruct (Hheld _ Hown) as [q [Hq Hslot]].
    assert (Hpq : q = pa).
    { apply aligned_same_slot; [|apply Hok|exact Hslot].
      apply seeded_pages_In in Hq. tauto. }
    subst q.
    destruct (Z.lt_ge_cases 0 (wrap_int (refcnt_count s (pa / PGSIZE) - 1)))
      as [Hpos|Hzero].
    + destruct (kfree_keep s l pa Hfl Hok Hpos) as [s1 [Hk [Hfl1 [_ [_ Hc1]]]]].
      rewrite Hk in Hrun. inversion Hrun; subst s1.
      exists l. split; [exact Hfl1|]. split; [exact Hincl|].
      apply (held_upd s s' _ _ Hheld Hc1). intros _. exists pa. tauto.
    + assert (Hnot : ~ In pa l).
      { intros Hin.
        apply (owned_not_free s l (pa / PGSIZE) Hfc Hown pa Hin).
        reflexivity. }
      destruct (kfree_push HL s l pa Hfl Hok Hnot Hzero) as [s1 [Hk [Hfl1 Hc1]]].
      rewrite Hk in Hrun. inversion Hrun; subst s1.
      exists (pa :: l). split; [exact Hfl1|]. split.
      * intros x [<-|Hx]; [exact Hq | apply Hincl; exact Hx].
      * apply (held_upd s s' _ _ Hheld Hc1). intros _. exists pa. tauto.
  - destruct (table_check_cases pa) as [[Ha Hhi]|[Hb _]];
      [|unfold increfcnt in Hrun; rewrite Hb in Hrun; discriminate].
    rewrite (increfcnt_ret pa s Ha Hhi) in Hrun.
    inversion Hrun; subst s'; clear Hrun.
    exists l. split; [exact Hfl|]. split; [exact Hincl|].
    eapply held_upd; [exact Hheld | reflexivity |].
    intros _. apply Hheld. exact Hown.
  - unfold bind in Hrun.
    destruct (table_check_cases pa) as [[Ha Hhi]|[Hb _]];
      [|unfold decrefcnt in Hrun; rewrite Hb in Hrun; discriminate].
    rewrite (decrefcnt_ret pa s Ha Hhi) in Hrun.
    inversion Hrun; subst s'; clear Hrun.
    exists l. split; [exact Hfl|]. split; [exact Hincl|].
    eapply held_upd; [exact Hheld | reflexivity |].
    intros _. apply Hheld. exact Hown.
  - apply run_getref_inv in Hrun. destruct Hrun as [_ ->].
    exists l. auto.
  - inversion Hrun; subst s'; clear Hrun.
    exists l. split; [|split; assumption].
    destruct Hfl as [Hch [Hnd Hok]].
    split; [|split; assumption]. cbn [mem kmem_freelist set_mem].
    apply (chain_store_byte HL); try assumption.
    apply (owned_not_free s l); assumption.
Qed.

Lemma reachable_owned_inv s :
  reachable_owned s -> allocator_inv s /\ seeded_inv s.
Proof.
  induction 1 as [m0 fuel s Hk | s c s' _ [IHa IHs] Hown Hrun].
  - split; [|apply (kinit_seeded fuel m0); exact Hk].
    destruct (kinit_ret HL fuel m0 s Hk) as [Hfl [Hfc Hr]].
    exists (rev seeded_pages). auto.
  - split; [eapply (run_inv HL); eauto | eapply run_seeded; eauto].
Qed.

(** X13: as long as callers only release, share and write pages they
    hold, every page that [kalloc] hands out is a whole page of
    [[end, PHYSTOP)] that [kinit] seeded, and nobody holds it at the
    time: its count before the call is 0 or -1.  More generally every
    counter that is at least 1 belongs to a seeded page. *)
Theorem kalloc_returns_seeded_unowned s r s' :
  reachable_owned s ->
  kalloc s = Ret r s' -> r <> 0 ->
  In r seeded_pages /\
  (end_ <= r /\ r mod PGSIZE = 0 /\ r + PGSIZE <= PHYSTOP) /\
  (refcnt_count s (r / PGSIZE) = 0 \/ refcnt_count s (r / PGSIZE) = -1) /\
  refcnt_count s' (r / PGSIZE) = 1 /\
  (forall i, 1 <= refcnt_count s i ->
             exists p, In p seeded_pages /\ p / PGSIZE = i).
Proof.
  intros Hreach Hk Hr.
  destruct (reachable_owned_inv s Hreach)
    as [[l [Hfl [Hfc _]]] [l0 [Hfl0 [Hincl Hheld]]]].
  assert (l0 = l).
  { destruct Hfl as [Hc _]. destruct Hfl0 as [Hc0 _].
    apply (is_chain_unique _ _ _ Hc0 _ Hc). }
  subst l0.
  destruct (kalloc_pop_inv s r s' Hk Hr) as [Hhead [_ [Hc1 _]]].
  assert (Hin : In r l).
  { destruct Hfl as [Hc _]. destruct (is_chain_head _ _ _ Hc)
      as [[H0 _]|[_ [l' ->]]]; [congruence|].
    rewrite Hhead. left. reflexivity. }
  assert (Hseed : In r seeded_pages) by (apply Hincl; exact Hin).
  split; [exact Hseed|]. split; [apply seeded_pages_In; exact Hseed|].
  split.
  { rewrite Forall_forall in Hfc. apply (Hfc r Hin). }
  split; [rewrite Hc1; apply upd_same | exact Hheld].
Qed.


(** ** A count brought to 0 by [decrefcnt] *)

(** The page [pa] is at count 0 and off the free list. *)
Lemma lost_step pa s c s' :
  pa mod PGSIZE = 0 ->
  allocator_inv s ->
  refcnt_count s (pa / PGSIZE) = 0 ->
  (forall l, freelist_is s l -> ~ In pa l) ->
  owned s c -> run c s = Ret tt s' ->
  refcnt_count s' (pa / PGSIZE) = 0 /\
  (forall l, freelist_is s' l -> ~ In pa l).
Proof.
  intros Hpa [l [Hfl [Hfc Hr]]] Hzero Hoff Hown Hrun.
  pose proof (Hoff l Hfl) as Hnotin.
  assert (Huniq : forall l', freelist_is s' l' ->
                  forall l1, freelist_is s' l1 -> ~ In pa l' -> ~ In pa l1).
  { intros l' [Hc' _] l1 [Hc1 _] Hnot.
    rewrite (is_chain_unique _ _ _ Hc1 _ Hc'). exact Hnot. }
  assert (Hother : forall q, 1 <= refcnt_count s (q / PGSIZE) ->
                             q / PGSIZE <> pa / PGSIZE).
  { intros q Hq Heq. rewrite Heq in Hq. lia. }
  destruct c as [|q|q|q|q|a b]; cbn [run owned] in Hrun, Hown.
  - unfold bind in Hrun. destruct l as [|r l].
    + destruct (kalloc_nil s Hfl) as [s1 [Hk [Hfl1 [Hc1 _]]]].
      rewrite Hk in Hrun. inversion Hrun; subst s1.
      split; [rewrite Hc1; exact Hzero|].
      intros l1 Hl1. apply (Huniq [] Hfl1 l1 Hl1). intros [].
    + destruct (kalloc_cons HL s r l Hfl) as [s1 [Hk [_ [Hfl1 [Hc1 _]]]]].
      rewrite Hk in Hrun. inversion Hrun; subst s1.
      destruct Hfl as [_ [_ Hok]]. inversion Hok as [|? ? Hokr _]; subst.
      split.
      * rewrite Hc1, upd_other; [exact Hzero|].
        apply aligned_index_ne;
          [exact (pgsize_pos HL) | exact Hpa | apply Hokr |].
        intros ->. apply Hnotin. left. reflexivity.
      * intros l1 Hl1. apply (Huniq l Hfl1 l1 Hl1).
        intros Hin. apply Hnotin. right. exact Hin.
  - pose proof (kfree_ret_ok q s s' Hrun) as Hok.
    destruct (Z.lt_ge_cases 0 (wrap_int (refcnt_count s (q / PGSIZE) - 1)))
      as [Hpos|Hle].
    + destruct (kfree_keep s l q Hfl Hok Hpos) as [s1 [Hk [Hfl1 [_ [_ Hc1]]]]].
      rewrite Hk in Hrun. inversion Hrun; subst s1.
      split.
      * rewrite Hc1, upd_other; [exact Hzero|].
        intros Heq. apply (Hother q Hown). symmetry. exact Heq.
      * intros l1 Hl1. apply (Huniq l Hfl1 l1 Hl1). exact Hnotin.
    + assert (Hnot : ~ In q l).
      { intros Hin.
        apply (owned_not_free s l (q / PGSIZE) Hfc Hown q Hin). reflexivity. }
      destruct (kfree_push HL s l q Hfl Hok Hnot Hle) as [s1 [Hk [Hfl1 Hc1]]].
      rewrite Hk in Hrun. inversion Hrun; subst s1.
      split.
      * rewrite Hc1, upd_other; [exact Hzero|].
        intros Heq. apply (Hother q Hown). symmetry. exact Heq.
      * intros l1 Hl1. apply (Huniq (q :: l) Hfl1 l1 Hl1).
        intros [->|Hin]; [|contradiction].
        apply (Hother pa Hown). reflexivity.
  - destruct (table_check_cases q) as [[Ha Hhi]|[Hb _]];
      [|unfold increfcnt in Hrun; rewrite Hb in Hrun; discriminate].
    rewrite (increfcnt_ret q s Ha Hhi) in Hrun.
    inversion Hrun; subst s'; clear Hrun. cbn [refcnt_count]. split.
    + rewrite upd_other; [exact Hzero|].
      intros Heq. apply (Hother q Hown). symmetry. exact Heq.
    + intros l1 Hl1. apply Hoff. exact Hl1.
  - unfold bind in Hrun.
    destruct (table_check_cases q) as [[Ha Hhi]|[Hb _]];
      [|unfold decrefcnt in Hrun; rewrite Hb in Hrun; discriminate].
    rewrite (decrefcnt_ret q s Ha Hhi) in Hrun.
    inversion Hrun; subst s'; clear Hrun. cbn [refcnt_count]. split.
    + rewrite upd_other; [exact Hzero|].
      intros Heq. apply (Hother q Hown). symmetry. exact Heq.
    + intros l1 Hl1. apply Hoff. exact Hl1.
  - apply run_getref_inv in Hrun. destruct Hrun as [_ ->].
    split; [exact Hzero|].
    intros l1 Hl1. apply Hoff. exact Hl1.
  - inversion Hrun; subst s'; clear Hrun. split; [exact Hzero|].
    assert (Hfl1 : freelist_is (set_mem (store_byte a b (mem s)) s) l).
    { destruct Hfl as [Hch [Hnd Hok]].
      split; [|split; assumption]. cbn [mem kmem_freelist set_mem].
      apply (chain_store_byte HL); try assumption.
      apply (owned_not_free s l); assumption. }
    intros l1 Hl1. apply (Huniq l Hfl1 l1 Hl1). exact Hnotin.
Qed.

Lemma lost_forever pa s s' :
  owned_run s s' ->
  pa mod PGSIZE = 0 ->
  reachable_owned s ->
  refcnt_count s (pa / PGSIZE) = 0 ->
  (forall l, freelist_is s l -> ~ In pa l) ->
  reachable_owned s' /\
  refcnt_count s' (pa / PGSIZE) = 0 /\
  (forall l, freelist_is s' l -> ~ In pa l).
Proof.
  induction 1 as [s | s c s1 s2 Hown Hrun _ IH]; intros Hpa Hreach Hzero Hoff.
  - auto.
  - destruct (lost_step pa s c s1 Hpa
                (proj1 (reachable_owned_inv s Hreach)) Hzero Hoff Hown Hrun)
      as [Hzero1 Hoff1].
    apply IH; try assumption.
    apply (reacho_call s c s1 Hreach Hown Hrun).
Qed.

(** X14: [decrefcnt] only counts, it never frees.  When callers keep
    to pages they hold and the last reference to a page is dropped
    with [decrefcnt] instead of [kfree], the call returns 0, the page
    is not put on the free list, and whatever owners do afterwards no
    [kalloc] returns that page again. *)
Theorem decrefcnt_leaks pa s c s1 s2 r s3 :
  reachable_owned s ->
  refcnt_count s (pa / PGSIZE) = 1 ->
  decrefcnt pa s = Ret c s1 ->
  owned_run s1 s2 ->
  kalloc s2 = Ret r s3 ->
  c = 0 /\
  kmem_freelist s1 = kmem_freelist s /\ mem s1 = mem s /\
  refcnt_count s2 (pa / PGSIZE) = 0 /\
  r <> pa.
Proof.
  intros Hreach Hone Hd Hrun Hk.
  destruct (reachable_owned_inv s Hreach)
    as [[l [Hfl [Hfc Hrange]]] [l0 [Hfl0 [Hincl Hheld]]]].
  destruct (table_check_cases pa) as [[Ha Hhi]|[Hb _]];
    [|unfold decrefcnt in Hd; rewrite Hb in Hd; discriminate].
  assert (Hreach1 : reachable_owned s1).
  { apply (reacho_call s (Decref pa) s1 Hreach).
    - cbn [owned]. lia.
    - cbn [run]. unfold bind. rewrite Hd. reflexivity. }
  destruct (Hheld (pa / PGSIZE)) as [q [Hq Hslot]]; [lia|].
  assert (Hqpa : q = pa).
  { apply aligned_same_slot; [|exact Ha|exact Hslot].
    apply seeded_pages_In in Hq. tauto. }
  subst q. pose proof (seeded_page_ok pa Hq) as Hok.
  rewrite (decrefcnt_ret pa s Ha Hhi) in Hd.
  inversion Hd; subst c s1; clear Hd.
  assert (Hw : wrap_int (refcnt_count s (pa / PGSIZE) - 1) = 0)
    by (rewrite Hone; reflexivity).
  split; [exact Hw|]. split; [reflexivity|]. split; [reflexivity|].
  destruct (lost_forever pa _ s2 Hrun Ha Hreach1) as [Hreach2 [Hzero2 Hoff2]].
  - cbn [refcnt_count]. rewrite upd_same. exact Hw.
  - intros l1 [Hc1 _]. cbn [mem kmem_freelist] in Hc1.
    destruct Hfl as [Hc _].
    rewrite (is_chain_unique _ _ _ Hc1 _ Hc).
    intros Hin.
    assert (Hown : 1 <= refcnt_count s (pa / PGSIZE)) by lia.
    apply (owned_not_free s l (pa / PGSIZE) Hfc Hown pa Hin).
    reflexivity.
  - split; [exact Hzero2|].
    intros ->.
    destruct (proj1 (reachable_owned_inv s2 Hreach2)) as [l2 [Hfl2 _]].
    assert (Hr : pa <> 0) by (pose proof (page_ok_pointer HL pa Hok); lia).
    destruct (kalloc_pop_inv s2 pa s3 Hk Hr) as [Hhead _].
    apply (Hoff2 l2 Hfl2).
    destruct Hfl2 as [Hc2 _].
    destruct (is_chain_head _ _ _ Hc2) as [[H0 _]|[_ [l' ->]]];
      [congruence|].
    rewrite Hhead. left. reflexivity.
Qed.

End MoreSeeding.

(** * The example of the specification, run through the theorems *)

Lemma example_layout_ok : layout_ok example_layout.
Proof. unfold layout_ok. cbn. lia. Qed.

(** A computation that returns leaves [exec] behind. *)
Lemma exec_ret {A} (c : M A) s a :
  result c s = Some a -> c s = Ret a (exec c s).
Proof. unfold result, exec. destruct (c s); congruence. Qed.

Lemma example_init_ret :
  @kinit example_layout 4 (boot (fun _ => 0)) = Ret tt example_init.
Proof. exact (exec_ret (@kinit example_layout 4) (boot (fun _ => 0)) tt eq_refl). Qed.

Lemma example_held_ret :
  @kalloc example_layout example_init = Ret 0x3000 example_held.
Proof. exact (exec_ret (@kalloc example_layout) example_init 0x3000 eq_refl). Qed.

Lemma example_shared_ret :
  @increfcnt example_layout 0x3000 example_held = Ret tt example_shared.
Proof. exact (exec_ret (@increfcnt example_layout 0x3000) example_held tt eq_refl). Qed.

Lemma example_page_ok : @page_ok example_layout 0x3000.
Proof. unfold page_ok. cbn. lia. Qed.

Lemma example_init_freelist :
  @freelist_is example_layout example_init [0x3000; 0x2000; 0x1000].
Proof.
  exact (proj1 (@kinit_ret example_layout example_layout_ok 4 _ _
                  example_init_ret)).
Qed.

(** After [kinit] of the example the first page handed out is
    [0x3000], with count 1. *)
Lemma kalloc_refcnt_one_example :
  refcnt_count example_held (0x3000 / 4096) = 1 /\
  exists s'', @getrefcnt example_layout 0x3000 example_held = Ret 1 s''.
Proof.
  assert (Hr : 0x3000 <> 0) by discriminate.
  pose proof (@kalloc_refcnt_one example_layout example_init 0x3000
                example_held example_held_ret Hr) as [Hone [_ Hget]].
  split; [exact Hone|]. apply Hget. cbn. lia.
Defined.


Lemma example_shared_reachable : @reachable_owned example_layout example_shared.
Proof.
  apply (@reacho_call example_layout example_held (Incref 0x3000)).
  - apply (@reacho_call example_layout example_init Kalloc).
    + exact (@reacho_kinit example_layout _ _ _ example_init_ret).
    + exact I.
    + cbn [run]. unfold bind. rewrite example_held_ret. reflexivity.
  - cbn [owned]. apply Z.leb_le. vm_compute. reflexivity.
  - exact example_shared_ret.
Qed.


(** Allocate [0x3000] and [0x2000], release them in that order: the
    next two allocations return [0x2000] and then [0x3000]. *)
Lemma stack_order_example :
  let s2 := exec (@kalloc example_layout) example_held in
  let s3 := exec (@kfree example_layout 0x3000) s2 in
  let s4 := exec (@kfree example_layout 0x2000) s3 in
  refcnt_count s3 (0x3000 / 4096) = 0 /\
  refcnt_count s4 (0x2000 / 4096) = 0 /\
  exists s5 s6,
    @kalloc example_layout s4 = Ret 0x2000 s5 /\
    @kalloc example_layout s5 = Ret 0x3000 s6.
Proof.
  intros s2 s3 s4.
  refine (@stack_order example_layout example_layout_ok example_init
            0x3000 0x2000 example_held s2 s3 s4 example_held_ret _ _ _ _ _ _).
  - discriminate.
  - exact (exec_ret (@kalloc example_layout) example_held 0x2000 eq_refl).
  - discriminate.
  - discriminate.
  - exact (exec_ret (@kfree example_layout 0x3000) s2 tt eq_refl).
  - exact (exec_ret (@kfree example_layout 0x2000) s3 tt eq_refl).
Defined.

(** [0x3000] held twice: the first [kfree] only lowers the count;
    held once: [kfree] puts it back at the head of the list. *)
Lemma shared_release_example :
  (exists s',
     @kfree example_layout 0x3000 example_shared = Ret tt s' /\
     refcnt_count s' (0x3000 / 4096) =
       refcnt_count example_shared (0x3000 / 4096) - 1 /\
     (forall i, i <> 0x3000 / 4096 ->
                refcnt_count s' i = refcnt_count example_shared i) /\
     kmem_freelist s' = kmem_freelist example_shared /\
     mem s' = mem example_shared /\
     (forall l, is_chain (mem example_shared) (kmem_freelist example_shared) l ->
                is_chain (mem s') (kmem_freelist s') l)) /\
  (exists s' s'',
     @kfree example_layout 0x3000 example_held = Ret tt s' /\
     refcnt_count s' (0x3000 / 4096) = 0 /\
     kmem_freelist s' = 0x3000 /\
     @kalloc example_layout s' = Ret 0x3000 s'').
Proof.
  split.
  - refine (proj1 (@shared_release example_layout example_layout_ok
                     0x3000 example_shared example_page_ok) _).
    split; [apply Z.ltb_lt | apply Z.leb_le]; vm_compute; reflexivity.
  - refine (proj2 (@shared_release example_layout example_layout_ok
                     0x3000 example_held example_page_ok) _).
    vm_compute. reflexivity.
Defined.

(** Three pages seeded: three allocations succeed, the fourth returns
    null, and after one [kfree] the next allocation succeeds. *)
Lemma exhaustion_example :
  exists s1 ps s2 s3,
    @freerange example_layout 4 0x1000 0x4000 (boot (fun _ => 0))
      = Ret tt s1 /\
    @kalloc_many example_layout 3 s1 = Ret ps s2 /\
    List.length ps = 3%nat /\
    Forall (fun p => p <> 0) ps /\
    @kalloc example_layout s2 = Ret 0 s3 /\
    forall p, In p ps ->
      exists s4 s5, @kfree example_layout p s3 = Ret tt s4 /\
                    @kalloc example_layout s4 = Ret p s5.
Proof.
  refine (proj2 (proj2 (@exhaustion example_layout example_layout_ok
                          0x1000 0x4000 4 (fun _ => 0) _ _ _))).
  - cbn. lia.
  - cbn. lia.
  - vm_compute. lia.
Defined.

(** Seeding [0x1000 .. 0x4000): the free list is [0x3000, 0x2000,
    0x1000] and the first allocation returns [0x3000]. *)
Lemma freerange_seeds_example :
  (exists s1 s2,
     @freerange example_layout 4 0x1000 0x4000 (boot (fun _ => 0))
       = Ret tt s1 /\
     is_chain (mem s1) (kmem_freelist s1) [0x3000; 0x2000; 0x1000] /\
     @kalloc example_layout s1 = Ret 0x3000 s2) /\
  (exists s1 s2,
     @kinit example_layout 4 (boot (fun _ => 0)) = Ret tt s1 /\
     is_chain (mem s1) (kmem_freelist s1) [0x3000; 0x2000; 0x1000] /\
     @kalloc example_layout s1 = Ret 0x3000 s2).
Proof.
  assert (H0 : 0 <= 0x1000) by lia.
  assert (H1 : 0x1000 + 2 * @PGSIZE example_layout <= 2 ^ 64) by (cbn; lia).
  assert (H2 : 0x4000 + @PGSIZE example_layout < 2 ^ 64) by (cbn; lia).
  assert (H3 : (List.length (@range_pages example_layout 0x1000 0x4000) < 4)%nat)
    by (vm_compute; lia).
  pose proof (proj2 (proj2 (proj2 (proj2 (proj2
                (@freerange_seeds example_layout example_layout_ok
                   0x1000 0x4000 4 H0 H1 H2 H3)))))) as [Hrange Hinit].
  split.
  - refine (Hrange _ _ (fun _ => 0)); cbn; lia.
  - refine (Hinit (fun _ => 0) 4%nat _). vm_compute. lia.
Defined.

(** A marker stored in [0x3000] before its release reads 5 after the
    page has been allocated again. *)
Lemma scrub_example :
  let s1 := exec (poke 0x3010 0xAB) example_held in
  let s2 := exec (@kfree example_layout 0x3000) s1 in
  mem s1 0x3010 = 0xAB mod 256 /\
  exists s3, @kalloc example_layout s2 = Ret 0x3000 s3 /\ mem s3 0x3010 = 5.
Proof.
  intros s1 s2.
  refine (proj2 (proj2 (proj2
            (@scrub_on_both_paths example_layout example_layout_ok
               0x3000 example_held example_page_ok _)))
            0x3010 0xAB s1 s2 _ _ _).
  - apply Z.leb_le. vm_compute. reflexivity.
  - cbn. lia.
  - reflexivity.
  - exact (exec_ret (@kfree example_layout 0x3000) s1 tt eq_refl).
Defined.

(** [getrefcnt] reads the table with no lock held. *)
Lemma getrefcnt_takes_no_lock :
  exists c s',
    @getrefcnt example_layout 0x3000 example_held = Ret c s' /\
    emitted example_held s' [EvCount 3] /\
    forall evs, emitted example_held s' evs ->
                count_guarded false evs = false.
Proof.
  exists 1, (record (EvCount 3) example_held).
  split; [exact (exec_ret (@getrefcnt example_layout 0x3000) example_held 1
                   eq_refl)|].
  split; [reflexivity|].
  intros evs He. unfold emitted in He.
  change (trace (record (EvCount 3) example_held))
    with ([EvCount 3] ++ trace example_held) in He.
  apply app_inv_tail in He.
  apply (f_equal (@rev event)) in He. rewrite rev_involutive in He.
  subst evs. reflexivity.
Qed.

Lemma example_seeded_page_ok : @page_ok example_layout 0x2000.
Proof. unfold page_ok. cbn. lia. Qed.

(** [kfree] of [0x2000] while it is on the free list. *)
Lemma double_free_example :
  exists s',
    @kfree example_layout 0x2000 example_init = Ret tt s' /\
    refcnt_count s' (0x2000 / 4096) =
      refcnt_count example_init (0x2000 / 4096) - 1 /\
    refcnt_count s' (0x2000 / 4096) < 0 /\
    kmem_freelist s' = 0x2000 /\
    load_le PTRSIZE (mem s') 0x2000 = kmem_freelist example_init mod 2 ^ 64 /\
    forall l, @freelist_is example_layout example_init l -> In 0x2000 l ->
      exists l1 l2,
        l = l1 ++ 0x2000 :: l2 /\
        walk (S (S (List.length l1))) (mem s') (kmem_freelist s')
        = 0x2000 :: l1 ++ [0x2000].
Proof.
  refine (@double_free example_layout example_layout_ok 0x2000 example_init
            example_seeded_page_ok _).
  split; [apply Z.ltb_lt | apply Z.leb_le]; vm_compute; reflexivity.
Defined.

(** What the list looks like afterwards: [0x2000] and [0x3000] point
    at each other, and [0x1000] is no longer reachable. *)
Lemma double_free_cycle :
  let s' := exec (@kfree example_layout 0x2000) example_init in
  refcnt_count s' 2 = -2 /\
  walk 6 (mem s') (kmem_freelist s')
  = [0x2000; 0x3000; 0x2000; 0x3000; 0x2000; 0x3000].
Proof. split; vm_compute; reflexivity. Qed.

(** * The further properties on the example *)

Lemma example_held_freelist :
  @freelist_is example_layout example_held [0x2000; 0x1000].
Proof.
  destruct (@kalloc_cons example_layout example_layout_ok example_init
              0x3000 [0x2000; 0x1000] example_init_freelist)
    as [s' [Hk [_ [Hfl _]]]].
  rewrite example_held_ret in Hk. inversion Hk; subst s'. exact Hfl.
Qed.

Lemma example_shared_freelist :
  @freelist_is example_layout example_shared [0x2000; 0x1000].
Proof.
  exact (@increfcnt_freelist example_layout 0x3000 example_held
           example_shared [0x2000; 0x1000] example_shared_ret
           example_held_freelist).
Qed.

Lemma example_held_reachable : @reachable_owned example_layout example_held.
Proof.
  apply (@reacho_call example_layout example_init Kalloc).
  - exact (@reacho_kinit example_layout _ _ _ example_init_ret).
  - exact I.
  - cbn [run]. unfold bind. rewrite example_held_ret. reflexivity.
Qed.

Lemma example_not_free : ~ In 0x3000 [0x2000; 0x1000].
Proof. intros [H|[H|[]]]; discriminate. Qed.

Lemma incref_decref_roundtrip_example :
  exists s1 s2,
    @increfcnt example_layout 0x3000 example_held = Ret tt s1 /\
    (refcnt_count example_held (0x3000 / 4096) < INT_MAX ->
     refcnt_count s1 (0x3000 / 4096)
     = refcnt_count example_held (0x3000 / 4096) + 1) /\
    @decrefcnt example_layout 0x3000 s1
    = Ret (refcnt_count example_held (0x3000 / 4096)) s2 /\
    (forall i, refcnt_count s2 i = refcnt_count example_held i) /\
    kmem_freelist s2 = kmem_freelist example_held /\
    mem s2 = mem example_held.
Proof.
  refine (proj1 (@incref_decref_roundtrip example_layout 0x3000
                   example_held _ _ _)).
  - reflexivity.
  - reflexivity.
  - split; apply Z.leb_le; vm_compute; reflexivity.
Defined.


Lemma kalloc_touches_only_its_page_example :
  (forall i, i <> 0x3000 / 4096 ->
             refcnt_count example_held i = refcnt_count example_init i) /\
  (forall a, a < 0x3000 \/ 0x3000 + 4096 <= a ->
             mem example_held a = mem example_init a) /\
  (0x3000 = 0 ->
   refcnt_count example_held = refcnt_count example_init /\
   mem example_held = mem example_init /\
   kmem_freelist example_held = 0 /\ kmem_freelist example_init = 0).
Proof.
  exact (@kalloc_touches_only_its_page example_layout example_init 0x3000
           example_held example_held_ret).
Defined.

Lemma kfree_touches_only_its_page_example :
  let s' := exec (@kfree example_layout 0x3000) example_held in
  (forall i, i <> 0x3000 / 4096 ->
             refcnt_count s' i = refcnt_count example_held i) /\
  (forall a, a < 0x3000 \/ 0x3000 + 4096 <= a ->
             mem s' a = mem example_held a) /\
  (kmem_freelist s' = kmem_freelist example_held \/
   kmem_freelist s' = 0x3000).
Proof.
  intros s'.
  refine (@kfree_touches_only_its_page example_layout 0x3000 example_held
            s' _ _).
  - cbn. lia.
  - exact (exec_ret (@kfree example_layout 0x3000) example_held tt eq_refl).
Defined.

Lemma kalloc_kfree_roundtrip_example :
  exists s1 s2,
    @kalloc example_layout example_init = Ret 0x3000 s1 /\
    refcnt_count s1 (0x3000 / 4096) = 1 /\
    @freelist_is example_layout s1 [0x2000; 0x1000] /\
    @kfree example_layout 0x3000 s1 = Ret tt s2 /\
    @freelist_is example_layout s2 [0x3000; 0x2000; 0x1000] /\
    kmem_freelist s2 = kmem_freelist example_init /\
    refcnt_count s2 (0x3000 / 4096) = 0 /\
    (forall i, i <> 0x3000 / 4096 ->
               refcnt_count s2 i = refcnt_count example_init i).
Proof.
  exact (@kalloc_kfree_roundtrip example_layout example_layout_ok
           example_init 0x3000 [0x2000; 0x1000] example_init_freelist).
Defined.

Lemma kfree_kalloc_roundtrip_example :
  exists s1 s2,
    @kfree example_layout 0x3000 example_held = Ret tt s1 /\
    @freelist_is example_layout s1 [0x3000; 0x2000; 0x1000] /\
    @kalloc example_layout s1 = Ret 0x3000 s2 /\
    @freelist_is example_layout s2 [0x2000; 0x1000] /\
    kmem_freelist s2 = kmem_freelist example_held /\
    (forall i, refcnt_count s2 i = refcnt_count example_held i) /\
    @page_filled example_layout (mem s2) 0x3000 5.
Proof.
  refine (@kfree_kalloc_roundtrip example_layout example_layout_ok
            example_held [0x2000; 0x1000] 0x3000 example_held_freelist
            example_page_ok example_not_free _).
  vm_compute. reflexivity.
Defined.

Lemma kfree_countdown_example :
  exists s1 s2,
    @kfree_times example_layout 1 0x3000 example_shared = Ret tt s1 /\
    kmem_freelist s1 = kmem_freelist example_shared /\
    mem s1 = mem example_shared /\
    refcnt_count s1 (0x3000 / 4096) = 1 /\
    @kfree example_layout 0x3000 s1 = Ret tt s2 /\
    @freelist_is example_layout s2 [0x3000; 0x2000; 0x1000] /\
    refcnt_count s2 (0x3000 / 4096) = 0 /\
    (forall i, i <> 0x3000 / 4096 ->
               refcnt_count s2 i = refcnt_count example_shared i).
Proof.
  refine (@kfree_countdown example_layout example_layout_ok 0x3000
            example_shared [0x2000; 0x1000] example_page_ok
            example_shared_freelist example_not_free _).
  split; apply Z.leb_le; vm_compute; reflexivity.
Defined.

Lemma kalloc_many_prefix_example :
  exists s',
    @kalloc_many example_layout 5 example_init
    = Ret [0x3000; 0x2000; 0x1000; 0; 0] s' /\
    @freelist_is example_layout s' [] /\
    NoDup [0x3000; 0x2000; 0x1000] /\
    Forall (fun p => p <> 0) [0x3000; 0x2000; 0x1000] /\
    (forall p, In p [0x3000; 0x2000; 0x1000] ->
               refcnt_count s' (p / 4096) = 1).
Proof.
  exact (@kalloc_many_prefix example_layout example_layout_ok 5
           example_init [0x3000; 0x2000; 0x1000] example_init_freelist).
Defined.

Lemma release_all_example :
  exists s1 s2,
    @kalloc_many example_layout 3 example_init
    = Ret [0x3000; 0x2000; 0x1000] s1 /\
    @freelist_is example_layout s1 [] /\
    @kfree_all example_layout [0x2000; 0x3000; 0x1000] s1 = Ret tt s2 /\
    @freelist_is example_layout s2 [0x1000; 0x3000; 0x2000] /\
    (forall p, In p [0x2000; 0x3000; 0x1000] ->
               refcnt_count s2 (p / 4096) = 0).
Proof.
  refine (@release_all example_layout example_layout_ok example_init
            [0x3000; 0x2000; 0x1000] [0x2000; 0x3000; 0x1000]
            example_init_freelist _).
  apply perm_swap.
Defined.

Lemma freerange_no_whole_page_example :
  @freerange example_layout 1 0x3800 0x4000 example_init
  = Ret tt example_init /\
  @range_pages example_layout 0x3800 0x4000 = [].
Proof.
  refine (@freerange_no_whole_page example_layout 1 0x3800 0x4000
            example_init _ _ _ _ _).
  - reflexivity.
  - lia.
  - cbn. lia.
  - vm_compute. reflexivity.
  - lia.
Defined.

Lemma freerange_outside_panics_example :
  @freerange example_layout 1 0 0x4000 example_init
  = Panic "kfree" example_init.
Proof.
  refine (@freerange_outside_panics example_layout 1 0 0x4000
            example_init _ _ _ _ _ _).
  - reflexivity.
  - lia.
  - cbn. lia.
  - vm_compute. discriminate.
  - left. vm_compute. reflexivity.
  - lia.
Defined.

Lemma kinit_table_example :
  exists s,
    @kinit example_layout 4 (boot (fun _ => 0)) = Ret tt s /\
    @freelist_is example_layout s [0x3000; 0x2000; 0x1000] /\
    (forall p, In p [0x1000; 0x2000; 0x3000] <->
               0x1000 <= p /\ p mod 4096 = 0 /\ p + 4096 <= 0x4000) /\
    (forall p, In p [0x1000; 0x2000; 0x3000] ->
               refcnt_count s (p / 4096) = -1) /\
    (forall i, (forall p, In p [0x1000; 0x2000; 0x3000] ->
                          p / 4096 <> i) ->
               refcnt_count s i = 0) /\
    (forall i j p q,
       nth_error [0x3000; 0x2000; 0x1000] i = Some p ->
       nth_error [0x3000; 0x2000; 0x1000] j = Some q ->
       (i < j)%nat -> q < p).
Proof.
  refine (@kinit_table example_layout example_layout_ok 4 (fun _ => 0) _).
  vm_compute. lia.
Defined.

Lemma kalloc_returns_seeded_unowned_example :
  let s' := exec (@kalloc example_layout) example_shared in
  In 0x2000 [0x1000; 0x2000; 0x3000] /\
  (0x1000 <= 0x2000 /\ 0x2000 mod 4096 = 0 /\ 0x2000 + 4096 <= 0x4000) /\
  (refcnt_count example_shared (0x2000 / 4096) = 0 \/
   refcnt_count example_shared (0x2000 / 4096) = -1) /\
  refcnt_count s' (0x2000 / 4096) = 1 /\
  (forall i, 1 <= refcnt_count example_shared i ->
             exists p, In p [0x1000; 0x2000; 0x3000] /\ p / 4096 = i).
Proof.
  intros s'.
  refine (@kalloc_returns_seeded_unowned example_layout example_layout_ok
            example_shared 0x2000 s' example_shared_reachable _ _).
  - exact (exec_ret (@kalloc example_layout) example_shared 0x2000 eq_refl).
  - discriminate.
Defined.

Lemma decrefcnt_leaks_example :
  let s1 := exec (@decrefcnt example_layout 0x3000) example_held in
  let s2 := exec (@run example_layout Kalloc) s1 in
  0 = 0 /\
  kmem_freelist s1 = kmem_freelist example_held /\
  mem s1 = mem example_held /\
  refcnt_count s2 (0x3000 / 4096) = 0 /\
  0x1000 <> 0x3000.
Proof.
  intros s1 s2.
  refine (@decrefcnt_leaks example_layout example_layout_ok 0x3000
            example_held 0 s1 s2 0x1000
            (exec (@kalloc example_layout) s2)
            example_held_reachable _ _ _ _).
  - vm_compute. reflexivity.
  - exact (exec_ret (@decrefcnt example_layout 0x3000) example_held 0
             eq_refl).
  - apply (@owned_run_step example_layout s1 Kalloc s2 s2).
    + exact I.
    + exact (exec_ret (@run example_layout Kalloc) s1 tt eq_refl).
    + apply owned_run_refl.
  - exact (exec_ret (@kalloc example_layout) s2 0x1000 eq_refl).
Defined.
